(** * Nicotine-Reinforcement: the reward model, its stability analysis and
      its parameter sweeps

    A shallow embedding of [src/model.py], [src/stability.py] and
    [src/bifurcation.py].

    Numbers.  The right-hand side of the ODE system and its closed-form
    Jacobian are written once, over any type that offers the arithmetic
    the source uses ([Arith]).  Two instances are used:
    - [fl], the run-time model of a Python float: an exact rational or
      [NaN].  Rounding, overflow, infinities and signed zeros are not
      modelled; values are kept in lowest terms, so equal numbers are
      equal terms.
    - [R], the real numbers, for statements about partial derivatives.

    State.  The model object owns one mutable dict, [self.params]; it is
    the store of the monad [M], which also carries Python exceptions.

    Numerical libraries.  [solve_ivp], [fsolve], [brentq] and [eig] are
    not part of the repository.  They are parameters of the development
    ([Solvers]): a root finder or integrator is a strategy that decides,
    from the answers it has seen, where to call its callback next; the
    callback itself runs against the live store. *)

From Stdlib Require Import QArith Qabs Reals Psatz.
From stdpp Require Import base gmap strings list sorting.

Set Default Proof Using "Type".

(** ** Arithmetic shared by the run-time and the real-valued reading *)

Class Arith (A : Type) := {
  zero : A;
  add : A -> A -> A;
  sub : A -> A -> A;
  mul : A -> A -> A;
  opp : A -> A;
  gtb : A -> A -> bool
}.

Declare Scope num_scope.
Delimit Scope num_scope with num.
Infix "+" := add : num_scope.
Infix "-" := sub : num_scope.
Infix "*" := mul : num_scope.
Notation "- x" := (opp x) : num_scope.

(** Python's builtin [max(a, b)]: [b] replaces [a] only when [b > a]. *)
Definition py_max {A} `{Arith A} (a b : A) : A := if gtb b a then b else a.

(** Python's builtin [min(a, b)]: [b] replaces [a] only when [b < a]. *)
Definition py_min {A} `{Arith A} (a b : A) : A := if gtb a b then b else a.

(** *** Floats: exact rationals and NaN *)

Inductive fl : Type :=
  | Fin (q : Q)
  | NaN.

Definition fl_lift2 (f : Q -> Q -> Q) (a b : fl) : fl :=
  match a, b with
  | Fin x, Fin y => Fin (Qred (f x y))
  | _, _ => NaN
  end.

Definition fl_lift1 (f : Q -> Q) (a : fl) : fl :=
  match a with
  | Fin x => Fin (Qred (f x))
  | NaN => NaN
  end.

Definition Qgtb (x y : Q) : bool :=
  match (x ?= y)%Q with Gt => true | _ => false end.

Definition Qgeb (x y : Q) : bool :=
  match (x ?= y)%Q with Lt => false | _ => true end.

(** Every comparison with NaN is false. *)
Definition fl_gtb (a b : fl) : bool :=
  match a, b with
  | Fin x, Fin y => Qgtb x y
  | _, _ => false
  end.

Definition fl_geb (a b : fl) : bool :=
  match a, b with
  | Fin x, Fin y => Qgeb x y
  | _, _ => false
  end.

Definition fl_ltb (a b : fl) : bool := fl_gtb b a.
Definition fl_leb (a b : fl) : bool := fl_geb b a.

Definition fl_abs : fl -> fl := fl_lift1 Qabs.

(** Division; a zero divisor gives NaN (numpy gives an infinity or NaN,
    and the one place that divides by a possible zero, the timescales of
    [eigenanalysis], turns infinities into NaN itself). *)
Definition fl_div (a b : fl) : fl :=
  match a, b with
  | Fin x, Fin y => if Qeq_bool y 0 then NaN else Fin (Qred (x / y))
  | _, _ => NaN
  end.

Definition isnan (a : fl) : bool :=
  match a with NaN => true | Fin _ => false end.

#[export] Instance fl_arith : Arith fl := {|
  zero := Fin 0;
  add := fl_lift2 Qplus;
  sub := fl_lift2 Qminus;
  mul := fl_lift2 Qmult;
  opp := fl_lift1 Qopp;
  gtb := fl_gtb
|}.

(** *** Reals *)

Definition R_gtb (a b : R) : bool := if Rlt_dec b a then true else false.

#[export] Instance R_arith : Arith R := {|
  zero := 0%R;
  add := Rplus;
  sub := Rminus;
  mul := Rmult;
  opp := Ropp;
  gtb := R_gtb
|}.

(** ** src/model.py: the state vector and the right-hand side *)

(** The five state variables, in the order of the state vector
    [[N, R_a, R_d, R_T, D]] (indices 0 to 4). *)
Inductive var : Type := vN | vR_a | vR_d | vR_T | vD.

#[export] Instance var_eq_dec : EqDecision var.
Proof. solve_decision. Defined.

Record state (A : Type) : Type := State {
  st_N : A;
  st_R_a : A;
  st_R_d : A;
  st_R_T : A;
  st_D : A
}.
Arguments State {A} _ _ _ _ _.
Arguments st_N {A} _.
Arguments st_R_a {A} _.
Arguments st_R_d {A} _.
Arguments st_R_T {A} _.
Arguments st_D {A} _.

(** [y[i]] *)
Definition state_get {A} (i : var) (y : state A) : A :=
  match i with
  | vN => st_N y
  | vR_a => st_R_a y
  | vR_d => st_R_d y
  | vR_T => st_R_T y
  | vD => st_D y
  end.

(** [y[i] = x] on a copy *)
Definition state_set {A} (i : var) (x : A) (y : state A) : state A :=
  match i with
  | vN => State x (st_R_a y) (st_R_d y) (st_R_T y) (st_D y)
  | vR_a => State (st_N y) x (st_R_d y) (st_R_T y) (st_D y)
  | vR_d => State (st_N y) (st_R_a y) x (st_R_T y) (st_D y)
  | vR_T => State (st_N y) (st_R_a y) (st_R_d y) x (st_D y)
  | vD => State (st_N y) (st_R_a y) (st_R_d y) (st_R_T y) x
  end.

Section Formulas.
Context {A : Type} `{Arith A}.
Local Open Scope num_scope.

(** The body of [NicotineRewardModel.dynamics] once the input [I] has
    been sampled; [p k] stands for [p['k']]. *)
Definition dynamics_rhs (p : string -> A) (I : A) (y : state A) : state A :=
  let '(State N R_a R_d R_T D) := y in
  let R_available := R_T - R_a - R_d in
  let R_available := py_max zero R_available in
  let dN_dt := I - p "k_N" * N in
  let dR_a_dt := p "k_on" * N * R_available
                 - p "k_off" * R_a
                 - p "k_des" * R_a in
  let dR_d_dt := p "k_des" * R_a - p "k_res" * R_d in
  let dD_dt := p "k_D" * R_a - p "k_clear" * D in
  let dR_T_dt := p "epsilon" * (D - p "D_0") in
  State dN_dt dR_a_dt dR_d_dt dR_T_dt dD_dt.

(** The body of [StabilityAnalyzer.jacobian]: row [i] holds the
    entries [J[i, 0..4]]; entries never assigned keep the zero of
    [np.zeros((5, 5))]. *)
Definition jacobian_entries (p : string -> A) (y : state A) : state (state A) :=
  let '(State N R_a R_d R_T D) := y in
  let R_available := R_T - R_a - R_d in
  State
    (State (- p "k_N") zero zero zero zero)
    (State (p "k_on" * R_available)
           (- p "k_on" * N - p "k_off" - p "k_des")
           (- p "k_on" * N)
           (p "k_on" * N)
           zero)
    (State zero (p "k_des") (- p "k_res") zero zero)
    (State zero zero zero zero (p "epsilon"))
    (State zero (p "k_D") zero zero (- p "k_clear")).
End Formulas.

Abbreviation matrix := (fun A : Type => state (state A)).

(** [J[i, j]] *)
Definition entry {A} (J : matrix A) (i j : var) : A :=
  state_get j (state_get i J).

(** ** Exceptions and the store *)

Inductive exn : Type :=
  | KeyError (key : string)
  | IndexError
  | ValueError (msg : string)
  | RuntimeError (msg : string)
  | LinAlgError.

Inductive result (A : Type) : Type :=
  | Ok (a : A)
  | Raise (e : exn).
Arguments Ok {A} _.
Arguments Raise {A} _.

(** [self.params] *)
Abbreviation params := (gmap string fl).

(** A method of an object that holds [self.params]: it may read and
    write the dict and may raise; the dict survives the exception. *)
Definition M (A : Type) : Type := params -> result A * params.

Definition ret {A} (a : A) : M A := fun s => (Ok a, s).

Definition raise {A} (e : exn) : M A := fun s => (Raise e, s).

Definition bind {A B} (m : M A) (k : A -> M B) : M B :=
  fun s =>
    match m s with
    | (Ok a, s') => k a s'
    | (Raise e, s') => (Raise e, s')
    end.

Notation "'let!' x ':=' m 'in' k" := (bind m (fun x => k))
  (at level 10, x name, m at level 100, k at level 200).
Notation "'do!' m 'in' k" := (bind m (fun _ => k))
  (at level 10, m at level 100, k at level 200).

(** [try: body  except: handler]; every modelled exception derives from
    [Exception], so [except Exception] and a bare [except] agree. *)
Definition try_except {A} (body : M A) (handler : exn -> M A) : M A :=
  fun s =>
    match body s with
    | (Ok a, s') => (Ok a, s')
    | (Raise e, s') => handler e s'
    end.

Definition lift {A} (r : result A) : M A := fun s => (r, s).

(** [self.params[k]] *)
Definition getitem (k : string) : M fl :=
  fun s =>
    match s !! k with
    | Some v => (Ok v, s)
    | None => (Raise (KeyError k), s)
    end.

(** [self.params.get(k)] *)
Definition dict_get (k : string) : M (option fl) := fun s => (Ok (s !! k), s).

(** [self.params[k] = v] *)
Definition setitem (k : string) (v : fl) : M unit :=
  fun s => (Ok tt, <[k := v]> s).

(** [p = self.params] followed by reads [p[k]] for the keys [ks], in
    this order: the first missing key raises; otherwise the reads are
    available as a function. *)
Fixpoint subscripts (ks : list string) : M (string -> fl) :=
  match ks with
  | [] => fun s => (Ok (fun k => default NaN (s !! k)), s)
  | k :: ks' => do! getitem k in subscripts ks'
  end.

(** ** src/model.py: NicotineRewardModel *)

Definition _default_parameters : params :=
  list_to_map [
    ("k_N", Fin 0.06);
    ("k_on", Fin 0.5);
    ("k_off", Fin 0.1);
    ("k_des", Fin 0.05);
    ("k_res", Fin 0.01);
    ("k_D", Fin 1.0);
    ("k_clear", Fin 0.5);
    ("epsilon", Fin 0.0001);
    ("D_0", Fin 0.5);
    ("R_T_0", Fin 1.0)
  ].

(** [__init__]: the defaults, updated with the caller's entries. *)
Definition init (user : option params) : params :=
  match user with
  | None => _default_parameters
  | Some u => u ∪ _default_parameters
  end.

(** The keys [dynamics] reads, in evaluation order. *)
Definition dynamics_keys : list string :=
  ["k_N"; "k_on"; "k_off"; "k_des"; "k_res"; "k_D"; "k_clear"; "epsilon"; "D_0"].

Definition dynamics (t : fl) (y : state fl) (input_func : fl -> fl) : M (state fl) :=
  let I := input_func t in
  let! p := subscripts dynamics_keys in
  ret (dynamics_rhs p I y).

Definition baseline_state : M (state fl) :=
  let! R_T_0 := getitem "R_T_0" in
  let! D_0 := getitem "D_0" in
  ret (State (Fin 0) (Fin 0) (Fin 0) R_T_0 D_0).

(** *** The numerical libraries *)

(** What a solver does after the answers it has seen so far. *)
Inductive move (Qy Res : Type) : Type :=
  | Call (q : Qy)
  | Stop (r : Res)
  | Throw (e : exn).
Arguments Call {Qy Res} _.
Arguments Stop {Qy Res} _.
Arguments Throw {Qy Res} _.

(** A library routine that takes a callback: it evaluates the callback
    at most [budget] times (every scipy routine used here bounds its
    iterations or function evaluations), choosing each point from the
    answers seen, and [spent] is what it does once the budget is used
    up. *)
Record strategy (Qy An Res : Type) : Type := Strategy {
  budget : nat;
  next : list (Qy * An) -> move Qy Res;
  spent : list (Qy * An) -> result Res
}.
Arguments Strategy {Qy An Res} _ _ _.
Arguments budget {Qy An Res} _.
Arguments next {Qy An Res} _ _.
Arguments spent {Qy An Res} _ _.

(** Running a library routine on a callback of the model.  The callback
    runs in [M]: what it writes to the store stays written, and what it
    raises leaves the routine. *)
Fixpoint drive {Qy An Res} (n : nat) (s : strategy Qy An Res)
    (f : Qy -> M An) (seen : list (Qy * An)) : M Res :=
  match n with
  | O => lift (spent s seen)
  | S n' =>
      match next s seen with
      | Stop r => ret r
      | Throw e => raise e
      | Call q => let! a := f q in drive n' s f (seen ++ [(q, a)])
      end
  end.

Definition run {Qy An Res} (s : strategy Qy An Res) (f : Qy -> M An) : M Res :=
  drive (budget s) s f [].

(** scipy's [OdeResult], as far as [simulate] reads it: [ode_y] holds
    the five rows [sol.y[0]] to [sol.y[4]]. *)
Record OdeResult : Type := {
  ode_success : bool;
  ode_message : string;
  ode_t : list fl;
  ode_y : state (list fl)
}.

(** What [scipy.linalg.eig] returns: the eigenvalues as pairs (real
    part, imaginary part) and the eigenvectors. *)
Record EigResult : Type := {
  eig_values : list (fl * fl);
  eig_vectors : list (list (fl * fl))
}.

Record Solvers : Type := {
  (** [solve_ivp(fun, t_span, y0, method, t_eval, rtol, atol)] *)
  solve_ivp : fl * fl -> state fl -> string -> list fl -> fl -> fl ->
              strategy (fl * state fl) (state fl) OdeResult;
  (** [fsolve(func, x0)] *)
  fsolve : state fl -> strategy (state fl) (state fl) (state fl);
  (** [brentq(f, a, b)] *)
  brentq : fl -> fl -> strategy fl fl fl;
  (** [eig(J)] *)
  eig : matrix fl -> result EigResult
}.

(** *** numpy helpers *)

(** [np.linspace(start, stop, num)] *)
Definition linspace (start stop : fl) (num : nat) : list fl :=
  let step := fl_div (stop - start)%num (Fin (inject_Z (Z.of_nat (num - 1)))) in
  map (fun i => (start + Fin (inject_Z (Z.of_nat i)) * step)%num) (seq 0 num).

(** [l[-1]] *)
Definition last_item {X} (l : list X) : M X :=
  match last l with
  | Some x => ret x
  | None => raise IndexError
  end.

(** [l[0]] *)
Definition first_item {X} (l : list X) : M X :=
  match l with
  | x :: _ => ret x
  | [] => raise IndexError
  end.

(** [np.maximum]: NaN wins. *)
Definition np_maximum (a b : fl) : fl :=
  match a, b with
  | Fin x, Fin y => if Qgtb y x then Fin y else Fin x
  | _, _ => NaN
  end.

(** [np.fmax]: NaN loses. *)
Definition np_fmax (a b : fl) : fl :=
  match a, b with
  | Fin x, Fin y => if Qgtb y x then Fin y else Fin x
  | NaN, b => b
  | a, NaN => a
  end.

(** [np.max(l)] *)
Definition np_max (l : list fl) : result fl :=
  match l with
  | [] => Raise (ValueError "zero-size array to reduction operation maximum which has no identity")
  | x :: l' => Ok (fold_left np_maximum l' x)
  end.

(** [np.nanmax(l)]: the largest entry that is not NaN; NaN (with a
    warning) when all are. *)
Definition np_nanmax (l : list fl) : result fl :=
  match l with
  | [] => Raise (ValueError "zero-size array to reduction operation fmax which has no identity")
  | x :: l' => Ok (fold_left np_fmax l' x)
  end.

(** [a[mask]] for a boolean mask as long as [a]. *)
Definition select {X} (a : list X) (mask : list bool) : list X :=
  map fst (filter (fun xb => snd xb = true) (zip a mask)).

(** [a - b] for one-dimensional arrays: equal lengths go elementwise, a
    single element is broadcast, anything else cannot be broadcast. *)
Definition np_sub (a b : list fl) : result (list fl) :=
  if bool_decide (length a = length b) then Ok (zip_with sub a b)
  else match a, b with
       | [x], _ => Ok (map (fun y => sub x y) b)
       | _, [y] => Ok (map (fun x => sub x y) a)
       | _, _ => Raise (ValueError "operands could not be broadcast together")
       end.

(** *** simulate and steady_state *)

(** The dict returned by [simulate]. *)
Record Simulation : Type := {
  sim_t : list fl;
  sim_N : list fl;
  sim_R_a : list fl;
  sim_R_d : list fl;
  sim_R_T : list fl;
  sim_D : list fl;
  sim_sol : OdeResult
}.

Section Model.
Variable E : Solvers.

Definition simulate (t_span : fl * fl) (input_func : fl -> fl)
    (y0 : option (state fl)) (t_eval : option (list fl)) (method : string)
    : M Simulation :=
  let! y0 := match y0 with
             | None => baseline_state
             | Some y => ret y
             end in
  let t_eval := match t_eval with
                | None => linspace (fst t_span) (snd t_span) 1000
                | Some g => g
                end in
  let! sol := run (solve_ivp E t_span y0 method t_eval (Fin 1e-8) (Fin 1e-10))
                  (fun ty => dynamics (fst ty) (snd ty) input_func) in
  if negb (ode_success sol)
  then raise (RuntimeError ("Integration failed: " +:+ ode_message sol))
  else ret {| sim_t := ode_t sol;
              sim_N := st_N (ode_y sol);
              sim_R_a := st_R_a (ode_y sol);
              sim_R_d := st_R_d (ode_y sol);
              sim_R_T := st_R_T (ode_y sol);
              sim_D := st_D (ode_y sol);
              sim_sol := sol |}.

(** [np.array([sol['N'][-1], ..., sol['D'][-1]])] *)
Definition final_state (sol : Simulation) : M (state fl) :=
  let! n := last_item (sim_N sol) in
  let! ra := last_item (sim_R_a sol) in
  let! rd := last_item (sim_R_d sol) in
  let! rt := last_item (sim_R_T sol) in
  let! d := last_item (sim_D sol) in
  ret (State n ra rd rt d).

Definition steady_state (I_const : fl) (include_upregulation : bool)
    : M (state fl) :=
  let steady_state_eqs (y : state fl) : M (state fl) :=
    let! derivatives := dynamics (Fin 0) y (fun _ => I_const) in
    ret (if negb include_upregulation
         then state_set vR_T (Fin 0) derivatives
         else derivatives) in
  let! y0 := baseline_state in
  let! y_guess :=
    if negb include_upregulation
    then (let! sol := simulate (Fin 0, Fin 500) (fun _ => I_const)
                               (Some y0) None "LSODA" in
          final_state sol)
    else (let! sol := simulate (Fin 0, Fin 100000) (fun _ => I_const)
                               (Some y0) None "LSODA" in
          final_state sol) in
  run (fsolve E y_guess) steady_state_eqs.

(** ** src/stability.py: StabilityAnalyzer *)

(** The keys [jacobian] reads, in evaluation order. *)
Definition jacobian_keys : list string :=
  ["k_N"; "k_on"; "k_off"; "k_des"; "k_res"; "epsilon"; "k_D"; "k_clear"].

Definition jacobian (y : state fl) (I_const : fl) : M (matrix fl) :=
  let! p := subscripts jacobian_keys in
  ret (jacobian_entries p y).

(** The dict returned by [eigenanalysis]. *)
Record EigenAnalysis : Type := {
  ea_eigenvalues : list (fl * fl);
  ea_eigenvectors : list (list (fl * fl));
  ea_timescales : list fl;
  ea_is_stable : bool;
  ea_real_parts : list fl;
  ea_imag_parts : list fl
}.

Definition eigenanalysis (y : state fl) (I_const : fl) : M EigenAnalysis :=
  let! J := jacobian y I_const in
  let! r := lift (eig E J) in
  let real_parts := map fst (eig_values r) in
  let imag_parts := map snd (eig_values r) in
  let is_stable := forallb (fun x => fl_ltb x (Fin 0)) real_parts in
  let timescales := map (fun x => fl_div (Fin 1) (fl_abs x)) real_parts in
  ret {| ea_eigenvalues := eig_values r;
         ea_eigenvectors := eig_vectors r;
         ea_timescales := timescales;
         ea_is_stable := is_stable;
         ea_real_parts := real_parts;
         ea_imag_parts := imag_parts |}.

(** [for i, x in enumerate(xs): body], started at index [i]; the
    loop's local variables are threaded as [acc]. *)
Fixpoint for_enumerate {X T} (i : nat) (xs : list X)
    (body : nat -> X -> T -> M T) (acc : T) : M T :=
  match xs with
  | [] => ret acc
  | x :: xs' => let! acc' := body i x acc in
                for_enumerate (S i) xs' body acc'
  end.

(** The dict returned by [parameter_sensitivity]. *)
Record Sensitivity : Type := {
  sens_param_values : list fl;
  sens_max_real_eigenvalue : list fl;
  sens_is_stable : list bool
}.

(** One pass of the loop of [parameter_sensitivity]; [acc] holds the
    lists [max_real_eigs] and [is_stable]. *)
Definition sensitivity_step (param_name : string) (I_const : fl)
    (include_upregulation : bool) (p_val : fl)
    (acc : list fl * list bool) : M (list fl * list bool) :=
  do! setitem param_name p_val in
  try_except
    (let! y_ss := steady_state I_const include_upregulation in
     let! eigen_results := eigenanalysis y_ss I_const in
     let! m := lift (np_max (ea_real_parts eigen_results)) in
     ret (fst acc ++ [m], snd acc ++ [ea_is_stable eigen_results]))
    (fun _ => ret (fst acc ++ [NaN], snd acc ++ [false])).

Definition parameter_sensitivity (param_name : string) (param_range : list fl)
    (I_const : fl) (include_upregulation : bool) : M Sensitivity :=
  let! original_value := getitem param_name in
  let! acc := for_enumerate 0 param_range
                (fun _ p_val acc =>
                   sensitivity_step param_name I_const include_upregulation p_val acc)
                ([], []) in
  do! setitem param_name original_value in
  ret {| sens_param_values := param_range;
         sens_max_real_eigenvalue := fst acc;
         sens_is_stable := snd acc |}.

(** ** src/bifurcation.py: BifurcationAnalyzer *)

(** The three arrays [continuation_1d] fills. *)
Record Arrays : Type := {
  steady_states : list (state fl);
  is_stable : list bool;
  max_eigs : list fl
}.

(** The dict returned by [continuation_1d]; the keys ['stability'] and
    ['max_eigenvalue'] exist only with [track_stability]. *)
Record Continuation : Type := {
  cont_param_values : list fl;
  cont_steady_states : list (state fl);
  cont_stability : option (list bool);
  cont_max_eigenvalue : option (list fl)
}.

(** [steady_states[i] = np.nan] fills the row with NaN. *)
Definition nan_state : state fl := State NaN NaN NaN NaN NaN.

(** The [try] block of the loop of [continuation_1d].  The import of
    [StabilityAnalyzer] inside the block is taken to succeed; if it did
    not, that would be one more exception of the block. *)
Definition continuation_try (param_name : string) (varying_input : bool)
    (include_upregulation track_stability : bool)
    (i : nat) (p_val : fl) (a : Arrays) : M Arrays :=
  let! I_const := if varying_input
                  then ret p_val
                  else (do! setitem param_name p_val in ret (Fin 0)) in
  let! y_ss := steady_state I_const include_upregulation in
  let a := {| steady_states := <[i := y_ss]> (steady_states a);
              is_stable := is_stable a;
              max_eigs := max_eigs a |} in
  if track_stability
  then (let! eigen_results := eigenanalysis y_ss I_const in
        let a := {| steady_states := steady_states a;
                    is_stable := <[i := ea_is_stable eigen_results]> (is_stable a);
                    max_eigs := max_eigs a |} in
        let! m := lift (np_max (ea_real_parts eigen_results)) in
        ret {| steady_states := steady_states a;
               is_stable := is_stable a;
               max_eigs := <[i := m]> (max_eigs a) |})
  else ret a.

(** The [except] block.  It overwrites index [i] of all three arrays,
    the only index the [try] block may have written before raising, so
    it is applied to the arrays as they were when the pass began. *)
Definition continuation_except (i : nat) (a : Arrays) : Arrays :=
  {| steady_states := <[i := nan_state]> (steady_states a);
     is_stable := <[i := false]> (is_stable a);
     max_eigs := <[i := NaN]> (max_eigs a) |}.

Definition continuation_1d (param_name : string) (param_range : list fl)
    (include_upregulation track_stability : bool) : M Continuation :=
  let n_params := length param_range in
  let a0 := {| steady_states := replicate n_params (State (Fin 0) (Fin 0) (Fin 0) (Fin 0) (Fin 0));
               is_stable := replicate n_params false;
               max_eigs := replicate n_params (Fin 0) |} in
  let varying_input := bool_decide (param_name = "I") in
  let! original_param := if varying_input
                         then ret None
                         else dict_get param_name in
  let! a := for_enumerate 0 param_range
              (fun i p_val a =>
                 try_except
                   (continuation_try param_name varying_input
                      include_upregulation track_stability i p_val a)
                   (fun _ => ret (continuation_except i a)))
              a0 in
  do! match original_param with
      | Some v => if negb varying_input then setitem param_name v else ret tt
      | None => ret tt
      end in
  ret {| cont_param_values := param_range;
         cont_steady_states := steady_states a;
         cont_stability := if track_stability then Some (is_stable a) else None;
         cont_max_eigenvalue := if track_stability then Some (max_eigs a) else None |}.

(** The dict returned by [hysteresis_loop]. *)
Record Hysteresis : Type := {
  up_sweep : Continuation;
  down_sweep : Continuation;
  hysteresis_width : fl
}.

(** [(r >= p_min) & (r <= p_max)] *)
Definition overlap_indices (r : list fl) (p_min p_max : fl) : list bool :=
  map (fun x => fl_geb x p_min && fl_leb x p_max) r.

(** [np.any(mask)] *)
Definition np_any (mask : list bool) : bool := existsb (fun b => b) mask.

(** The second half of [hysteresis_loop]: the estimate of the width
    from the dopamine columns of the two sweeps. *)
Definition estimate_width (param_range_up param_range_down : list fl)
    (D_up D_down : list fl) : M fl :=
  let! up_first := first_item param_range_up in
  let! down_last := last_item param_range_down in
  let p_min := py_max up_first down_last in
  let! up_last := last_item param_range_up in
  let! down_first := first_item param_range_down in
  let p_max := py_min up_last down_first in
  if fl_gtb p_max p_min
  then (let overlap_indices_up := overlap_indices param_range_up p_min p_max in
        let overlap_indices_down := overlap_indices param_range_down p_min p_max in
        if np_any overlap_indices_up && np_any overlap_indices_down
        then (let! diff := lift (np_sub (select D_up overlap_indices_up)
                                        (select D_down overlap_indices_down)) in
              lift (np_nanmax (map fl_abs diff)))
        else ret (Fin 0))
  else ret (Fin 0).

Definition hysteresis_loop (param_range_up param_range_down : list fl)
    (param_name : string) : M Hysteresis :=
  let! up := continuation_1d param_name param_range_up true true in
  let! down := continuation_1d param_name param_range_down true true in
  let D_up := map st_D (cont_steady_states up) in
  let D_down := map st_D (cont_steady_states down) in
  let! width := estimate_width param_range_up param_range_down D_up D_down in
  ret {| up_sweep := up; down_sweep := down; hysteresis_width := width |}.

(** [var_indices = {'N': 0, 'R_a': 1, 'R_d': 2, 'R_T': 3, 'D': 4}] *)
Definition var_indices : gmap string var :=
  list_to_map [("N", vN); ("R_a", vR_a); ("R_d", vR_d); ("R_T", vR_T); ("D", vD)].

(** The closure [threshold_func] of [critical_transition_threshold]. *)
Definition threshold_func (param_name : string) (var_idx : var)
    (threshold_value : fl) (p_val : fl) : M fl :=
  let! I_const := if bool_decide (param_name = "I")
                  then ret p_val
                  else (do! setitem param_name p_val in ret (Fin 0)) in
  try_except
    (let! y_ss := steady_state I_const true in
     ret (state_get var_idx y_ss - threshold_value)%num)
    (fun _ => ret NaN).

(** The last statement of [critical_transition_threshold]: the root
    search, with every exception turned into [None]. *)
Definition threshold_search (param_name : string) (param_range : fl * fl)
    (var_idx : var) (threshold_value : fl) : M (option fl) :=
  try_except
    (let! critical_val := run (brentq E (fst param_range) (snd param_range))
                              (threshold_func param_name var_idx threshold_value) in
     ret (Some critical_val))
    (fun _ => ret None).

Definition critical_transition_threshold (param_name : string)
    (param_range : fl * fl) (threshold_var : string) (threshold_value : fl)
    : M (option fl) :=
  let! var_idx := match var_indices !! threshold_var with
                  | Some i => ret i
                  | None => raise (KeyError threshold_var)
                  end in
  let! val_min := threshold_func param_name var_idx threshold_value (fst param_range) in
  let! val_max := threshold_func param_name var_idx threshold_value (snd param_range) in
  if isnan val_min || isnan val_max
  then ret None
  else if fl_gtb (val_min * val_max)%num (Fin 0)
       then ret None
       else threshold_search param_name param_range var_idx threshold_value.
End Model.

(** ** src/model.py: the input functions *)

(** [bolus_input(amplitude, t_start, duration)]; the chained comparison
    [t_start <= t < t_start + duration] is the conjunction of its two
    halves. *)
Definition bolus_input (amplitude t_start duration : fl) : fl -> fl :=
  fun t =>
    if fl_leb t_start t && fl_ltb t (t_start + duration)%num
    then amplitude
    else Fin 0.

(** [continuous_input(rate)] *)
Definition continuous_input (rate : fl) : fl -> fl := fun _ => rate.

(** The loop of [repeated_bolus] over the dose numbers [doses]: the
    first dose whose window holds [t] returns. *)
Fixpoint dose_loop (amplitude interval duration t : fl) (doses : list nat) : fl :=
  match doses with
  | [] => Fin 0
  | i :: doses' =>
      let t_start := (Fin (inject_Z (Z.of_nat i)) * interval)%num in
      if fl_leb t_start t && fl_ltb t (t_start + duration)%num
      then amplitude
      else dose_loop amplitude interval duration t doses'
  end.

(** [repeated_bolus(amplitude, interval, n_doses, duration)];
    [range(n_doses)] is empty for a negative [n_doses]. *)
Definition repeated_bolus (amplitude interval : fl) (n_doses : Z) (duration : fl)
    : fl -> fl :=
  fun t => dose_loop amplitude interval duration t (seq 0 (Z.to_nat n_doses)).

(** ** The remaining analyses of src/stability.py and src/bifurcation.py *)

(** A quotient of two floats can be infinite even in this model, where
    the operands are not: numpy divides a non-zero number by zero to an
    infinity of its sign, and zero by zero to NaN (signed zeros are not
    modelled). *)
Inductive xfl : Type :=
  | XFin (q : Q)
  | XNaN
  | PInf
  | NInf.

(** [a / b] on numpy floats *)
Definition np_divide (a b : fl) : xfl :=
  match a, b with
  | Fin x, Fin y =>
      if Qeq_bool y 0
      then match (x ?= 0)%Q with
           | Gt => PInf
           | Lt => NInf
           | Eq => XNaN
           end
      else XFin (Qred (x / y))
  | _, _ => XNaN
  end.

(** [a < c] for a quotient [a] and a literal [c] *)
Definition xfl_ltb (a : xfl) (c : Q) : bool :=
  match a with
  | XFin x => Qgtb c x
  | NInf => true
  | PInf | XNaN => false
  end.

(** [a != 0]: true for NaN. *)
Definition fl_neb0 (a : fl) : bool :=
  match a with
  | Fin x => negb (Qeq_bool x 0)
  | NaN => true
  end.

(** [np.sort] on one dimension, as insertion sort: ascending, NaN
    last. *)
Definition sort_leb (a b : fl) : bool :=
  match a, b with
  | Fin x, Fin y => Qle_bool x y
  | Fin _, NaN => true
  | NaN, Fin _ => false
  | NaN, NaN => true
  end.

Fixpoint sort_insert (x : fl) (l : list fl) : list fl :=
  match l with
  | [] => [x]
  | y :: l' => if sort_leb x y then x :: y :: l' else y :: sort_insert x l'
  end.

Fixpoint np_sort (l : list fl) : list fl :=
  match l with
  | [] => []
  | x :: l' => sort_insert x (np_sort l')
  end.

(** The dict returned by [timescale_separation]. *)
Record TimescaleSeparation : Type := {
  fast_timescale : fl;
  slow_timescale : fl;
  separation_ratio : xfl;
  all_timescales : list fl
}.

(** The dict returned by [detect_bifurcations]. *)
Record Bifurcations : Type := {
  saddle_node_indices : list nat;
  stability_change_indices : list nat
}.

(** [a[i]] for an index the loops keep in range. *)
Definition item (a : list fl) (i : nat) : fl := default NaN (a !! i).

(** The test of the fold loop at index [i]: the entry is not NaN and is
    a strict local extremum of its two neighbours. *)
Definition is_fold (D_curve : list fl) (i : nat) : bool :=
  if isnan (item D_curve i) then false
  else (fl_gtb (item D_curve i) (item D_curve (i - 1))
        && fl_gtb (item D_curve i) (item D_curve (i + 1)))
       || (fl_ltb (item D_curve i) (item D_curve (i - 1))
           && fl_ltb (item D_curve i) (item D_curve (i + 1))).

(** [for i in indices: if test(i): out.append(i)] *)
Definition collect (test : nat -> bool) (indices : list nat) : list nat :=
  fold_left (fun out i => if test i then out ++ [i] else out) indices [].

(** [detect_bifurcations(continuation_result)]; [range(1, n - 1)] and
    [range(1, n)] are empty when the bounds cross. *)
Definition detect_bifurcations (continuation_result : Continuation) : Bifurcations :=
  let D_curve := map st_D (cont_steady_states continuation_result) in
  let saddle_node_indices :=
    collect (is_fold D_curve) (seq 1 (length D_curve - 1 - 1)) in
  let stability_change_indices :=
    match cont_stability continuation_result with
    | Some stability =>
        collect (fun i => negb (eqb (default false (stability !! i))
                                    (default false (stability !! (i - 1)))))
                (seq 1 (length stability - 1))
    | None => []
    end in
  {| saddle_node_indices := saddle_node_indices;
     stability_change_indices := stability_change_indices |}.

(** The classification heuristic of [intake_regime_classifier]. *)
Definition classify_regime (D_ss R_T_ss D_0 R_T_0 : fl) : string :=
  let D_increase := np_divide (D_ss - D_0)%num D_0 in
  let R_T_increase := np_divide (R_T_ss - R_T_0)%num R_T_0 in
  if xfl_ltb D_increase 0.2 && xfl_ltb R_T_increase 0.05 then "Casual"
  else if xfl_ltb D_increase 0.5 && xfl_ltb R_T_increase 0.15 then "Regular"
  else "Dependent".

(** The two arrays and the list [intake_regime_classifier] fills. *)
Record RegimeArrays : Type := {
  D_steady : list fl;
  R_T_steady : list fl;
  regimes : list string
}.

(** The dict returned by [intake_regime_classifier]. *)
Record Regimes : Type := {
  reg_intake_rates : list fl;
  reg_dopamine_levels : list fl;
  reg_receptor_upregulation : list fl;
  reg_regime : list string
}.

Section Analyses.
Variable E : Solvers.

Definition timescale_separation (y : state fl) (I_const : fl)
    : M TimescaleSeparation :=
  let! eigen_results := eigenanalysis E y I_const in
  let timescales := ea_timescales eigen_results in
  let valid_timescales := filter (fun x => isnan x = false) timescales in
  let valid_timescales := np_sort valid_timescales in
  match valid_timescales with
  | [] => ret {| fast_timescale := NaN;
                 slow_timescale := NaN;
                 separation_ratio := XNaN;
                 all_timescales := [] |}
  | fast :: _ =>
      let slow := default NaN (last valid_timescales) in
      ret {| fast_timescale := fast;
             slow_timescale := slow;
             separation_ratio := if fl_gtb fast (Fin 0)
                                 then np_divide slow fast
                                 else PInf;
             all_timescales := valid_timescales |}
  end.

Definition classify_fixed_point (y : state fl) (I_const : fl) : M string :=
  let! eigen_results := eigenanalysis E y I_const in
  let real_parts := ea_real_parts eigen_results in
  let imag_parts := ea_imag_parts eigen_results in
  if forallb (fun x => fl_ltb x (Fin 0)) real_parts
  then (if existsb fl_neb0 imag_parts
        then ret "Stable focus (with oscillatory modes)"
        else ret "Stable node")
  else if forallb (fun x => fl_gtb x (Fin 0)) real_parts
       then ret "Unstable node"
       else ret "Saddle (mixed stability)".

(** The [try] block of the loop of [intake_regime_classifier]; the two
    reads of [params['D_0']] see the same value and are one read
    here. *)
Definition regime_try (R_T_0 : fl) (i : nat) (I : fl) (a : RegimeArrays)
    : M RegimeArrays :=
  let! y_ss := steady_state E I true in
  let D_i := st_D y_ss in
  let R_T_i := st_R_T y_ss in
  let! D_0 := getitem "D_0" in
  let regime := classify_regime D_i R_T_i D_0 R_T_0 in
  ret {| D_steady := <[i := D_i]> (D_steady a);
         R_T_steady := <[i := R_T_i]> (R_T_steady a);
         regimes := regimes a ++ [regime] |}.

(** The [except] block; as in [continuation_1d] it overwrites what the
    [try] block may have written at index [i], and the list has not
    grown when the block raised. *)
Definition regime_except (i : nat) (a : RegimeArrays) : RegimeArrays :=
  {| D_steady := <[i := NaN]> (D_steady a);
     R_T_steady := <[i := NaN]> (R_T_steady a);
     regimes := regimes a ++ ["Undefined"] |}.

Definition intake_regime_classifier (I_values : list fl) : M Regimes :=
  let n := length I_values in
  let a0 := {| D_steady := replicate n (Fin 0);
               R_T_steady := replicate n (Fin 0);
               regimes := [] |} in
  let! R_T_0 := getitem "R_T_0" in
  let! a := for_enumerate 0 I_values
              (fun i I a =>
                 try_except (regime_try R_T_0 i I a)
                            (fun _ => ret (regime_except i a)))
              a0 in
  ret {| reg_intake_rates := I_values;
         reg_dopamine_levels := D_steady a;
         reg_receptor_upregulation := map (fun x => (x - R_T_0)%num) (R_T_steady a);
         reg_regime := regimes a |}.

End Analyses.

(** ** Two solver behaviours to run the model on *)

(** [coarse ok] is the crudest behaviour a numerical library can show:
    - the integrator evaluates the right-hand side once, at the initial
      point, and reports the trajectory frozen at [y0] on the whole
      grid, with [success = ok];
    - the root finder evaluates the residual once, at its first guess,
      and returns the guess;
    - the bracketing search evaluates both end points and returns the
      midpoint, or raises when the two values have the same sign;
    - the eigenvalue routine reads the eigenvalues off the diagonal
      (exact for a triangular matrix) and refuses NaN entries. *)
Module Coarse.

Definition frozen (ok : bool) (y0 : state fl) (t_eval : list fl) : OdeResult :=
  {| ode_success := ok;
     ode_message := if ok then "The solver successfully reached the end of the integration interval."
                    else "Required step size is less than spacing between numbers.";
     ode_t := t_eval;
     ode_y := State (map (fun _ => st_N y0) t_eval)
                    (map (fun _ => st_R_a y0) t_eval)
                    (map (fun _ => st_R_d y0) t_eval)
                    (map (fun _ => st_R_T y0) t_eval)
                    (map (fun _ => st_D y0) t_eval) |}.

Definition integrate (ok : bool) (t_span : fl * fl) (y0 : state fl)
    (method : string) (t_eval : list fl) (rtol atol : fl)
    : strategy (fl * state fl) (state fl) OdeResult :=
  {| budget := 2;
     next := fun seen => match seen with
                         | [] => Call (fst t_span, y0)
                         | _ => Stop (frozen ok y0 t_eval)
                         end;
     spent := fun _ => Ok (frozen ok y0 t_eval) |}.

Definition find_root (x0 : state fl) : strategy (state fl) (state fl) (state fl) :=
  {| budget := 2;
     next := fun seen => match seen with
                         | [] => Call x0
                         | _ => Stop x0
                         end;
     spent := fun _ => Ok x0 |}.

Definition bracket (a b : fl) : strategy fl fl fl :=
  {| budget := 3;
     next := fun seen =>
       match seen with
       | [] => Call a
       | [_] => Call b
       | (_, fa) :: (_, fb) :: _ =>
           if fl_gtb (fa * fb)%num (Fin 0)
           then Throw (ValueError "f(a) and f(b) must have different signs")
           else Stop (fl_div (a + b)%num (Fin 2))
       end;
     spent := fun _ => Raise (RuntimeError "Failed to converge") |}.

Definition diagonal (J : matrix fl) : list fl :=
  [entry J vN vN; entry J vR_a vR_a; entry J vR_d vR_d; entry J vR_T vR_T; entry J vD vD].

Definition spectrum (J : matrix fl) : result EigResult :=
  if existsb isnan (diagonal J)
  then Raise (ValueError "array must not contain infs or NaNs")
  else Ok {| eig_values := map (fun x => (x, Fin 0)) (diagonal J);
             eig_vectors := [] |}.

Definition solvers (ok : bool) : Solvers :=
  {| solve_ivp := integrate ok;
     fsolve := find_root;
     brentq := bracket;
     eig := spectrum |}.

End Coarse.

(** [np.allclose(x, 0.0, atol=atol)] on one component: [|x| <= atol]. *)
Definition close_to_zero (atol : fl) (x : fl) : bool := fl_leb (fl_abs x) atol.

Definition allclose_zero (atol : fl) (y : state fl) : bool :=
  close_to_zero atol (st_N y) && close_to_zero atol (st_R_a y)
  && close_to_zero atol (st_R_d y) && close_to_zero atol (st_R_T y)
  && close_to_zero atol (st_D y).

(** ** Notions used by the statements *)

(** [preserves m]: running [m] leaves [self.params] as it found it,
    whether it returns or raises. *)
Definition preserves {A} (m : M A) : Prop := forall s, snd (m s) = s.

(** [same_but k s s']: the stores [s] and [s'] differ at most at key [k]
    (where [s'] certainly has an entry once the sweep has written it). *)
Definition same_but (k : string) (s s' : params) : Prop :=
  forall x, <[k := x]> s' = <[k := x]> s.

(** The store in which a sweep over [param_name], called on the store
    [s], computes the pass for the value [p]: the intake rate is not a
    parameter, a named parameter has just been overwritten by [p]. *)
Definition sweep_store (param_name : string) (p : fl) (s : params) : params :=
  if bool_decide (param_name = "I") then s else <[param_name := p]> s.

(** The constant intake of that pass. *)
Definition sweep_input (param_name : string) (p : fl) : fl :=
  if bool_decide (param_name = "I") then p else Fin 0.

(** What one pass of [continuation_1d] computes, array writes left
    aside: the steady state and, with [track_stability], the stability
    flag and the largest real part. *)
Definition pass (E : Solvers) (I_const : fl)
    (include_upregulation track_stability : bool)
    : M (state fl * option (bool * fl)) :=
  let! y_ss := steady_state E I_const include_upregulation in
  if track_stability
  then (let! eigen_results := eigenanalysis E y_ss I_const in
        let! m := lift (np_max (ea_real_parts eigen_results)) in
        ret (y_ss, Some (ea_is_stable eigen_results, m)))
  else ret (y_ss, None).

(** What [parameter_sensitivity], called on the store [s], records for
    the value [p]: the largest real part and the stability flag of the
    steady state found with the parameter overwritten by [p], or NaN and
    [False] when that pass raised. *)
Definition sensitivity_entry (E : Solvers) (param_name : string) (I_const : fl)
    (include_upregulation : bool) (s : params) (p : fl) : fl * bool :=
  match fst (pass E I_const include_upregulation true (<[param_name := p]> s)) with
  | Ok (_, Some (b, m)) => (m, b)
  | _ => (NaN, false)
  end.

(** Index [j] of the arrays [a] holds what the pass for the value [p]
    has to leave there: the invalid entry when the pass raised, the
    computed values otherwise. *)
Definition recorded_at (E : Solvers) (param_name : string)
    (include_upregulation track_stability : bool) (s : params)
    (a : Arrays) (j : nat) (p : fl) : Prop :=
  match fst (pass E (sweep_input param_name p) include_upregulation track_stability
               (sweep_store param_name p s)) with
  | Raise _ =>
      steady_states a !! j = Some nan_state
      /\ is_stable a !! j = Some false
      /\ max_eigs a !! j = Some NaN
  | Ok (y, so) =>
      steady_states a !! j = Some y
      /\ forall b m, so = Some (b, m) ->
           is_stable a !! j = Some b /\ max_eigs a !! j = Some m
  end.

(** The arrays [a'] have the shape of [a] and agree with [a] below
    index [i]. *)
Definition extends_below (i : nat) (a a' : Arrays) : Prop :=
  length (steady_states a') = length (steady_states a)
  /\ length (is_stable a') = length (is_stable a)
  /\ length (max_eigs a') = length (max_eigs a)
  /\ forall j, (j < i)%nat ->
       steady_states a' !! j = steady_states a !! j
       /\ is_stable a' !! j = is_stable a !! j
       /\ max_eigs a' !! j = max_eigs a !! j.

(** Writing the results of a pass into the arrays. *)
Definition write_pass (i : nat) (a : Arrays) (y : state fl)
    (so : option (bool * fl)) : Arrays :=
  {| steady_states := <[i := y]> (steady_states a);
     is_stable := match so with
                  | Some (b, _) => <[i := b]> (is_stable a)
                  | None => is_stable a
                  end;
     max_eigs := match so with
                 | Some (_, m) => <[i := m]> (max_eigs a)
                 | None => max_eigs a
                 end |}.

(** Two values of the threshold function have the same sign: both are
    positive or both are negative (NaN has no sign). *)
Definition same_sign (a b : fl) : Prop :=
  match a, b with
  | Fin x, Fin y => (0 < x /\ 0 < y)%Q \/ (x < 0 /\ y < 0)%Q
  | _, _ => False
  end.

Definition positive (a : fl) : Prop :=
  match a with
  | Fin x => (0 < x)%Q
  | NaN => False
  end.

(** How many points of the range [r] lie in [[p_min, p_max]]. *)
Definition points_in (r : list fl) (p_min p_max : fl) : nat :=
  length (filter (fun b => b = true) (overlap_indices r p_min p_max)).

(** The intervals covered by two ranges do not overlap: one range lies
    entirely below the other. *)
Definition intervals_disjoint (up down : list fl) : Prop :=
  (forall x y, x ∈ up -> y ∈ down -> fl_ltb x y = true)
  \/ (forall x y, x ∈ up -> y ∈ down -> fl_ltb y x = true).

(** Linear algebra on five-vectors, to speak about eigenvectors. *)
Definition dot {A} `{Arith A} (u v : state A) : A :=
  (st_N u * st_N v + st_R_a u * st_R_a v + st_R_d u * st_R_d v
   + st_R_T u * st_R_T v + st_D u * st_D v)%num.

Definition mat_vec {A} `{Arith A} (J : matrix A) (v : state A) : state A :=
  State (dot (st_N J) v) (dot (st_R_a J) v) (dot (st_R_d J) v)
        (dot (st_R_T J) v) (dot (st_D J) v).

Definition scale {A} `{Arith A} (c : A) (v : state A) : state A :=
  State (c * st_N v)%num (c * st_R_a v)%num (c * st_R_d v)%num
        (c * st_R_T v)%num (c * st_D v)%num.

(** [v] is an eigenvector of [J] for the eigenvalue [lam]. *)
Definition eigenpair (J : matrix fl) (lam : fl) (v : state fl) : Prop :=
  v <> State (Fin 0) (Fin 0) (Fin 0) (Fin 0) (Fin 0)
  /\ mat_vec J v = scale lam v.

(** The real number a float stands for, and a parameter mapping read as
    real constants. *)
Definition real_of (a : fl) : R :=
  match a with
  | Fin q => Q2R q
  | NaN => 0%R
  end.

Definition real_params (s : params) (k : string) : R :=
  real_of (default NaN (s !! k)).

(** Component [i] of the right-hand side as a function of the state
    variable [j] alone, the other variables staying as in [y]. *)
Definition partial_map (p : string -> R) (I : R) (y : state R) (i j : var)
    (x : R) : R :=
  state_get i (dynamics_rhs p I (state_set j x y)).

(** The baseline state of the default model, and the matrix [jacobian]
    computes there. *)
Definition default_baseline : state fl :=
  State (Fin 0) (Fin 0) (Fin 0) (Fin 1.0) (Fin 0.5).

Definition default_baseline_jacobian : matrix fl :=
  State
    (State (Fin (-3 # 50)) (Fin 0) (Fin 0) (Fin 0) (Fin 0))
    (State (Fin (1 # 2)) (Fin (-3 # 20)) (Fin 0) (Fin 0) (Fin 0))
    (State (Fin 0) (Fin 0.05) (Fin (-1 # 100)) (Fin 0) (Fin 0))
    (State (Fin 0) (Fin 0) (Fin 0) (Fin 0) (Fin 0.0001))
    (State (Fin 0) (Fin 1.0) (Fin 0) (Fin 0) (Fin (-1 # 2))).

(** The mapping has an entry for each of the ten default keys. *)
Definition has_defaults (s : params) : Prop :=
  forall k, is_Some (_default_parameters !! k) -> is_Some (s !! k).

(** [for k, v in writes: params[k] = v] *)
Definition write_all (writes : list (string * fl)) (s : params) : params :=
  fold_left (fun s kv => <[fst kv := snd kv]> s) writes s.

(** The first key of [ks] without an entry in [s]. *)
Definition first_missing (s : params) (ks : list string) : option string :=
  head (filter (fun k => s !! k = None) ks).

(** The horizon of the warm start of [steady_state]. *)
Definition warm_start_horizon (include_upregulation : bool) : fl :=
  if negb include_upregulation then Fin 500 else Fin 100000.

(** What [intake_regime_classifier], called on the store [s] with
    baseline receptor level [R_T_0], records for the intake [I]: the
    steady-state dopamine and receptor levels with their regime, or NaN,
    NaN and ["Undefined"] when the steady state (or the read of
    [params['D_0']]) raised. *)
Record Classified : Type := {
  cl_D : fl;
  cl_R_T : fl;
  cl_regime : string
}.

Definition regime_entry (E : Solvers) (s : params) (R_T_0 : fl) (I : fl)
    : Classified :=
  match fst (steady_state E I true s), s !! "D_0" with
  | Ok y_ss, Some D_0 =>
      {| cl_D := st_D y_ss;
         cl_R_T := st_R_T y_ss;
         cl_regime := classify_regime (st_D y_ss) (st_R_T y_ss) D_0 R_T_0 |}
  | _, _ => {| cl_D := NaN; cl_R_T := NaN; cl_regime := "Undefined" |}
  end.

(** The order of the three regimes. *)
Definition severity (regime : string) : nat :=
  if bool_decide (regime = "Casual") then 0
  else if bool_decide (regime = "Regular") then 1
  else 2.

(** The order [np.sort] sorts by. *)
Definition fl_le (a b : fl) : Prop := sort_leb a b = true.

(** A float that is NaN or a non-negative number. *)
Definition nonneg_or_nan (a : fl) : Prop :=
  match a with
  | Fin q => (0 <= q)%Q
  | NaN => True
  end.

(** ** Theorems *)

(** C1.  With the default parameters and zero intake, the derivative at
    [baseline_state()] is [0, 0, 0, 0, -0.25] at every time [t]: the
    dopamine component is [k_D * 0 - k_clear * D_0 = -0.25], so the
    baseline is not an equilibrium and the test
    [np.allclose(dydt, 0.0, atol=1e-10)] of [test_baseline_equilibrium]
    fails. *)
Theorem C1_baseline_derivative :
  forall t : fl,
    (let! y0 := baseline_state in dynamics t y0 (fun _ => Fin 0)) (init None)
    = (Ok (State (Fin 0) (Fin 0) (Fin 0) (Fin 0) (Fin (-1 # 4))), init None)
    /\ allclose_zero (Fin 1e-10) (State (Fin 0) (Fin 0) (Fin 0) (Fin 0) (Fin (-1 # 4))) = false.
Proof.
  intros t. split; vm_compute; reflexivity.
Qed.


(** *** The monad *)

Lemma bind_ok {A B} (m : M A) (k : A -> M B) s a s' :
  m s = (Ok a, s') -> bind m k s = k a s'.
Proof. intros Hm. unfold bind. now rewrite Hm. Qed.

Lemma bind_raise {A B} (m : M A) (k : A -> M B) s e s' :
  m s = (Raise e, s') -> bind m k s = (Raise e, s').
Proof. intros Hm. unfold bind. now rewrite Hm. Qed.

Lemma try_ok {A} (m : M A) (h : exn -> M A) s a s' :
  m s = (Ok a, s') -> try_except m h s = (Ok a, s').
Proof. intros Hm. unfold try_except. now rewrite Hm. Qed.

Lemma try_raise {A} (m : M A) (h : exn -> M A) s e s' :
  m s = (Raise e, s') -> try_except m h s = h e s'.
Proof. intros Hm. unfold try_except. now rewrite Hm. Qed.

Lemma preserves_run {A} (m : M A) s :
  preserves m -> exists r, m s = (r, s).
Proof.
  intros Hm. specialize (Hm s). destruct (m s) as [r s']. simpl in Hm.
  subst s'. now exists r.
Qed.

Lemma preserves_ret {A} (a : A) : preserves (ret a).
Proof. now intros s. Qed.

Lemma preserves_raise {A} (e : exn) : preserves (raise (A := A) e).
Proof. now intros s. Qed.

Lemma preserves_lift {A} (r : result A) : preserves (lift r).
Proof. now intros s. Qed.

Lemma preserves_getitem k : preserves (getitem k).
Proof. intros s. unfold getitem. now destruct (s !! k). Qed.

Lemma preserves_dict_get k : preserves (dict_get k).
Proof. now intros s. Qed.

Lemma preserves_bind {A B} (m : M A) (k : A -> M B) :
  preserves m -> (forall a, preserves (k a)) -> preserves (bind m k).
Proof.
  intros Hm Hk s. unfold bind. specialize (Hm s).
  destruct (m s) as [[a | e] s']; simpl in Hm; subst s'.
  - apply Hk.
  - reflexivity.
Qed.

Lemma preserves_try {A} (m : M A) (h : exn -> M A) :
  preserves m -> (forall e, preserves (h e)) -> preserves (try_except m h).
Proof.
  intros Hm Hh s. unfold try_except. specialize (Hm s).
  destruct (m s) as [[a | e] s']; simpl in Hm; subst s'.
  - reflexivity.
  - apply Hh.
Qed.

(** A [try] whose handler returns a value always returns. *)
Lemma try_except_total {A} (m : M A) (d : A) s :
  preserves m -> exists v, try_except m (fun _ => ret d) s = (Ok v, s).
Proof.
  intros Hm. destruct (preserves_run m s Hm) as [[v | e] Hrun].
  - exists v. now rewrite (try_ok _ _ _ _ _ Hrun).
  - exists d. now rewrite (try_raise _ _ _ _ _ Hrun).
Qed.

Lemma preserves_subscripts ks : preserves (subscripts ks).
Proof.
  induction ks as [| k ks IH]; simpl.
  - now intros s.
  - apply preserves_bind; [apply preserves_getitem | intros _; exact IH].
Qed.

Lemma preserves_last_item {X} (l : list X) : preserves (last_item l).
Proof. unfold last_item. destruct (last l); [apply preserves_ret | apply preserves_raise]. Qed.

Lemma preserves_first_item {X} (l : list X) : preserves (first_item l).
Proof. destruct l; [apply preserves_raise | apply preserves_ret]. Qed.

(** A library routine writes nothing itself: if its callback preserves
    the store, so does the whole run. *)
Lemma preserves_drive {Qy An Res} (st : strategy Qy An Res) (f : Qy -> M An) :
  (forall q, preserves (f q)) ->
  forall n seen, preserves (drive n st f seen).
Proof.
  intros Hf n. induction n as [| n IH]; intros seen; simpl.
  - apply preserves_lift.
  - destruct (next st seen) as [q | r | e].
    + apply preserves_bind; [apply Hf | intros a; apply IH].
    + apply preserves_ret.
    + apply preserves_raise.
Qed.

Lemma preserves_run_strategy {Qy An Res} (st : strategy Qy An Res) (f : Qy -> M An) :
  (forall q, preserves (f q)) -> preserves (run st f).
Proof. intros Hf. now apply preserves_drive. Qed.

Create HintDb frame.
#[local] Hint Resolve preserves_ret preserves_raise preserves_lift
  preserves_getitem preserves_dict_get preserves_subscripts
  preserves_last_item preserves_first_item : frame.

(** Peels one construct of a computation off a [preserves] goal. *)
Ltac frame_step :=
  match goal with
  | |- preserves (bind _ _) => apply preserves_bind; [| intros ?]
  | |- preserves (try_except _ _) => apply preserves_try; [| intros ?]
  | |- preserves (run _ _) => apply preserves_run_strategy; intros ?
  | |- preserves (if ?b then _ else _) => destruct b
  | |- preserves (match ?x with _ => _ end) => destruct x
  | |- preserves _ => solve [auto with frame]
  end.
Ltac frame := repeat frame_step.

(** *** The model reads its parameters and never writes them *)

Lemma preserves_dynamics t y input_func : preserves (dynamics t y input_func).
Proof. unfold dynamics. frame. Qed.

Lemma preserves_baseline_state : preserves baseline_state.
Proof. unfold baseline_state. frame. Qed.

#[local] Hint Resolve preserves_dynamics preserves_baseline_state : frame.

Section ModelFrame.
Variable E : Solvers.

Lemma preserves_simulate t_span input_func y0 t_eval method :
  preserves (simulate E t_span input_func y0 t_eval method).
Proof. unfold simulate. frame. Qed.

Lemma preserves_final_state sol : preserves (final_state sol).
Proof. unfold final_state. frame. Qed.

Hint Resolve preserves_simulate preserves_final_state : frame.

Lemma preserves_steady_state I_const include_upregulation :
  preserves (steady_state E I_const include_upregulation).
Proof. unfold steady_state. frame. Qed.

Lemma preserves_jacobian y I_const : preserves (jacobian y I_const).
Proof. unfold jacobian. frame. Qed.

Hint Resolve preserves_steady_state preserves_jacobian : frame.

Lemma preserves_eigenanalysis y I_const : preserves (eigenanalysis E y I_const).
Proof. unfold eigenanalysis. frame. Qed.

End ModelFrame.

#[local] Hint Resolve preserves_simulate preserves_final_state
  preserves_steady_state preserves_jacobian preserves_eigenanalysis : frame.

(** C10.  [simulate] and [steady_state] leave the parameter mapping as
    they found it, for every behaviour of the numerical libraries, every
    time span, intake function, initial state, evaluation grid, method,
    constant intake and upregulation flag, and whether they return or
    raise. *)
Theorem C10_simulate_steady_state_preserve_params :
  forall (E : Solvers) (t_span : fl * fl) (input_func : fl -> fl)
         (y0 : option (state fl)) (t_eval : option (list fl)) (method : string)
         (I_const : fl) (include_upregulation : bool) (s : params),
    snd (simulate E t_span input_func y0 t_eval method s) = s
    /\ snd (steady_state E I_const include_upregulation s) = s.
Proof.
  intros. split.
  - apply preserves_simulate.
  - apply preserves_steady_state.
Qed.

(** *** Sweeps that overwrite one parameter *)

Lemma same_but_refl k s : same_but k s s.
Proof. now intros x. Qed.

Lemma same_but_insert k v s s' : same_but k s s' -> same_but k s (<[k := v]> s').
Proof. intros Hs x. rewrite insert_insert_eq. apply Hs. Qed.

Lemma same_but_restore k v s s' :
  s !! k = Some v -> same_but k s s' -> <[k := v]> s' = s.
Proof. intros Hk Hs. rewrite Hs. now apply insert_id. Qed.

Section SensitivityProofs.
Variable E : Solvers.

Lemma preserves_pass I_const incl track : preserves (pass E I_const incl track).
Proof. unfold pass. frame. Qed.

(** One pass of the loop: it never raises, it leaves the parameter
    overwritten, and it appends one entry to each list. *)
Lemma sensitivity_step_spec name I_const incl p acc s0 s :
  same_but name s0 s ->
  sensitivity_step E name I_const incl p acc s
  = (Ok (fst acc ++ [fst (sensitivity_entry E name I_const incl s0 p)],
         snd acc ++ [snd (sensitivity_entry E name I_const incl s0 p)]),
     <[name := p]> s0).
Proof.
  intros Hs. unfold sensitivity_step.
  rewrite (bind_ok _ _ s tt (<[name := p]> s)) by reflexivity.
  rewrite (Hs p).
  unfold try_except, sensitivity_entry, pass, bind, lift, ret.
  pose proof (preserves_steady_state E I_const incl (<[name := p]> s0)) as P1.
  destruct (steady_state E I_const incl _) as [[y | e] s1];
    simpl in P1; subst s1; [| reflexivity].
  pose proof (preserves_eigenanalysis E y I_const (<[name := p]> s0)) as P2.
  destruct (eigenanalysis E y I_const _) as [[er | e] s2];
    simpl in P2; subst s2; [| reflexivity].
  destruct (np_max (ea_real_parts er)) as [m | e]; reflexivity.
Qed.

Lemma sensitivity_loop_spec name I_const incl s0 range :
  forall i acc s,
    same_but name s0 s ->
    exists s',
      for_enumerate i range
        (fun _ p_val acc => sensitivity_step E name I_const incl p_val acc) acc s
      = (Ok (fst acc ++ map (fun p => fst (sensitivity_entry E name I_const incl s0 p)) range,
             snd acc ++ map (fun p => snd (sensitivity_entry E name I_const incl s0 p)) range),
         s')
      /\ same_but name s0 s'.
Proof.
  induction range as [| p range IH]; intros i acc s Hs; simpl.
  - exists s. rewrite !app_nil_r. split; [now destruct acc | exact Hs].
  - rewrite (bind_ok _ _ _ _ _ (sensitivity_step_spec name I_const incl p acc s0 s Hs)).
    destruct (IH (S i)
                (fst acc ++ [fst (sensitivity_entry E name I_const incl s0 p)],
                 snd acc ++ [snd (sensitivity_entry E name I_const incl s0 p)])
                (<[name := p]> s0)) as (s' & Hloop & Hs').
    { apply same_but_insert, same_but_refl. }
    exists s'. split; [| exact Hs'].
    rewrite Hloop. simpl. now rewrite <- !app_assoc.
Qed.

End SensitivityProofs.

(** C6.  For a name present in the parameter mapping and any sweep
    range, [parameter_sensitivity] returns normally with the mapping
    exactly as it was before the call, whatever the numerical libraries
    do for the single values: a value whose steady state or
    eigenanalysis fails is recorded as NaN and [False], and the sweep
    goes on to the restore. *)
Theorem C6_parameter_sensitivity_restores_params :
  forall (E : Solvers) (param_name : string) (param_range : list fl)
         (I_const : fl) (include_upregulation : bool) (s : params),
    is_Some (s !! param_name) ->
    parameter_sensitivity E param_name param_range I_const include_upregulation s
    = (Ok {| sens_param_values := param_range;
             sens_max_real_eigenvalue :=
               map (fun p => fst (sensitivity_entry E param_name I_const
                                    include_upregulation s p)) param_range;
             sens_is_stable :=
               map (fun p => snd (sensitivity_entry E param_name I_const
                                    include_upregulation s p)) param_range |},
       s).
Proof.
  intros E name range I_const incl s [v Hv].
  unfold parameter_sensitivity.
  rewrite (bind_ok _ _ s v s) by (unfold getitem; now rewrite Hv).
  destruct (sensitivity_loop_spec E name I_const incl s range 0 ([], []) s
              (same_but_refl name s)) as (s' & Hloop & Hs').
  rewrite (bind_ok _ _ _ _ _ Hloop).
  rewrite (bind_ok _ _ s' tt (<[name := v]> s')) by reflexivity.
  now rewrite (same_but_restore name v s s' Hv Hs').
Qed.

Lemma C6_parameter_sensitivity_restores_params_witness :
  parameter_sensitivity (Coarse.solvers false) "k_des" [Fin 1; Fin 2] (Fin 0) true
    (init None)
  = (Ok {| sens_param_values := [Fin 1; Fin 2];
           sens_max_real_eigenvalue := [NaN; NaN];
           sens_is_stable := [false; false] |},
     init None).
Proof.
  rewrite (C6_parameter_sensitivity_restores_params (Coarse.solvers false) "k_des"
             [Fin 1; Fin 2] (Fin 0) true (init None)).
  - vm_compute. reflexivity.
  - exists (Fin 0.05). vm_compute. reflexivity.
Defined.

(** *** continuation_1d, pass by pass *)

Lemma sweep_store_twice name p q s :
  sweep_store name q (sweep_store name p s) = sweep_store name q s.
Proof.
  unfold sweep_store. case_bool_decide; [reflexivity |].
  apply insert_insert_eq.
Qed.

Section ContinuationProofs.
Variable E : Solvers.

Lemma continuation_try_spec name incl track i p a s :
  continuation_try E name (bool_decide (name = "I")) incl track i p a s
  = match pass E (sweep_input name p) incl track (sweep_store name p s) with
    | (Ok (y, so), s') => (Ok (write_pass i a y so), s')
    | (Raise e, s') => (Raise e, s')
    end.
Proof.
  unfold continuation_try, pass, sweep_input, sweep_store.
  case_bool_decide as Hn; unfold bind, setitem, ret, lift; simpl;
    (destruct (steady_state E _ incl _) as [[y | e] s1]; [| reflexivity]);
    (destruct track; [| reflexivity]);
    (destruct (eigenanalysis E y _ s1) as [[er | e] s2]; [| reflexivity]);
    (destruct (np_max (ea_real_parts er)) as [m | e]; reflexivity).
Qed.

(** One pass of the loop, [try] and [except] together: it never raises,
    it leaves the store of the pass behind, and it writes index [i]
    only. *)
Lemma continuation_pass_spec name incl track i p a s0 s :
  (forall q, sweep_store name q s = sweep_store name q s0) ->
  (i < length (steady_states a))%nat ->
  (i < length (is_stable a))%nat ->
  (i < length (max_eigs a))%nat ->
  exists a',
    try_except
      (continuation_try E name (bool_decide (name = "I")) incl track i p a)
      (fun _ => ret (continuation_except i a)) s
    = (Ok a', sweep_store name p s0)
    /\ extends_below i a a'
    /\ (forall j, j <> i ->
          steady_states a' !! j = steady_states a !! j
          /\ is_stable a' !! j = is_stable a !! j
          /\ max_eigs a' !! j = max_eigs a !! j)
    /\ recorded_at E name incl track s0 a' i p.
Proof.
  intros Hs H1 H2 H3.
  unfold try_except. rewrite continuation_try_spec.
  unfold recorded_at. rewrite Hs.
  destruct (preserves_run (pass E (sweep_input name p) incl track)
              (sweep_store name p s0) (preserves_pass E _ _ _)) as [r Hr].
  rewrite Hr. simpl.
  destruct r as [[y so] | e].
  - exists (write_pass i a y so). split; [reflexivity |].
    split; [| split].
    + unfold extends_below, write_pass; simpl.
      destruct so as [[b m] |]; rewrite ?length_insert;
        repeat split; auto; rewrite ?list_lookup_insert_ne by lia; reflexivity.
    + intros j Hj. unfold write_pass; simpl.
      destruct so as [[b m] |]; rewrite ?list_lookup_insert_ne by auto; auto.
    + unfold write_pass; simpl. split.
      * now apply list_lookup_insert_eq.
      * intros b m ->. split; now apply list_lookup_insert_eq.
  - exists (continuation_except i a). split; [reflexivity |].
    split; [| split].
    + unfold extends_below, continuation_except; simpl.
      rewrite !length_insert.
      repeat split; auto; rewrite list_lookup_insert_ne by lia; reflexivity.
    + intros j Hj. unfold continuation_except; simpl.
      rewrite !list_lookup_insert_ne by auto. auto.
    + unfold continuation_except; simpl.
      repeat split; now apply list_lookup_insert_eq.
Qed.

Lemma recorded_at_agree name incl track s a a' j p :
  steady_states a' !! j = steady_states a !! j ->
  is_stable a' !! j = is_stable a !! j ->
  max_eigs a' !! j = max_eigs a !! j ->
  recorded_at E name incl track s a j p ->
  recorded_at E name incl track s a' j p.
Proof.
  intros H1 H2 H3. unfold recorded_at.
  destruct (fst _) as [[y so] | e]; rewrite H1, H2, H3; auto.
Qed.

(** The loop: it never raises, every pass writes its own index, and the
    store it leaves is the store of its last pass. *)
Lemma continuation_loop_spec name incl track range :
  forall i a s0 s,
    (forall q, sweep_store name q s = sweep_store name q s0) ->
    (i + length range <= length (steady_states a))%nat ->
    (i + length range <= length (is_stable a))%nat ->
    (i + length range <= length (max_eigs a))%nat ->
    exists a' s',
      for_enumerate i range
        (fun i p_val a =>
           try_except
             (continuation_try E name (bool_decide (name = "I")) incl track i p_val a)
             (fun _ => ret (continuation_except i a)))
        a s
      = (Ok a', s')
      /\ (forall q, sweep_store name q s' = sweep_store name q s0)
      /\ s' = match last range with
              | Some p => sweep_store name p s0
              | None => s
              end
      /\ extends_below i a a'
      /\ forall k p, range !! k = Some p ->
           recorded_at E name incl track s0 a' (i + k) p.
Proof.
  induction range as [| p range IH]; intros i a s0 s Hs H1 H2 H3; simpl.
  - exists a, s. split; [reflexivity |]. split; [exact Hs |].
    split; [reflexivity |]. split.
    + unfold extends_below. repeat split; reflexivity.
    + intros k q Hk. discriminate.
  - simpl in H1, H2, H3.
    destruct (continuation_pass_spec name incl track i p a s0 s Hs)
      as (a1 & Hpass & (L1 & L2 & L3 & _) & Hother & Hrec); [lia .. |].
    rewrite (bind_ok _ _ _ _ _ Hpass).
    destruct (IH (S i) a1 s0 (sweep_store name p s0)) as
      (a' & s' & Hloop & Hs' & Hlast & (M1 & M2 & M3 & Hbelow) & Hrest).
    { intros q. apply sweep_store_twice. }
    { lia. } { lia. } { lia. }
    exists a', s'. split; [exact Hloop |]. split; [exact Hs' |]. split.
    { rewrite Hlast. destruct range as [| p' range']; [reflexivity |].
      rewrite last_cons_cons.
      destruct (last (p' :: range')) eqn:Hl; [reflexivity |].
      apply last_None in Hl. discriminate. }
    split.
    + unfold extends_below. split; [congruence |]. split; [congruence |].
      split; [congruence |].
      intros j Hj. destruct (Hbelow j) as (B1 & B2 & B3); [lia |].
      destruct (Hother j) as (O1 & O2 & O3); [lia |].
      rewrite B1, B2, B3. auto.
    + intros [| k] q Hk; simpl in Hk.
      * injection Hk as <-. rewrite Nat.add_0_r.
        destruct (Hbelow i) as (B1 & B2 & B3); [lia |].
        now apply (recorded_at_agree name incl track s0 a1).
      * replace (i + S k)%nat with (S i + k)%nat by lia. now apply Hrest.
Qed.

End ContinuationProofs.

Section ContinuationResults.
Variable E : Solvers.

Lemma pass_untracked I_const incl s y so :
  fst (pass E I_const incl false s) = Ok (y, so) -> so = None.
Proof.
  unfold pass, bind, ret.
  destruct (steady_state E I_const incl s) as [[y' | e] s']; simpl.
  - now intros [= _ <-].
  - discriminate.
Qed.

(** [continuation_1d] as a whole: the arrays it returns, and the store
    it leaves. *)
Lemma continuation_1d_spec name range incl track s :
  exists a,
    continuation_1d E name range incl track s
    = (Ok {| cont_param_values := range;
             cont_steady_states := steady_states a;
             cont_stability := if track then Some (is_stable a) else None;
             cont_max_eigenvalue := if track then Some (max_eigs a) else None |},
       let s1 := match last range with
                 | Some p => sweep_store name p s
                 | None => s
                 end in
       if bool_decide (name = "I") then s1
       else match s !! name with
            | Some v => <[name := v]> s1
            | None => s1
            end)
    /\ length (steady_states a) = length range
    /\ length (is_stable a) = length range
    /\ length (max_eigs a) = length range
    /\ forall k p, range !! k = Some p -> recorded_at E name incl track s a k p.
Proof.
  unfold continuation_1d.
  set (a0 := {| steady_states := replicate (length range) _;
                is_stable := replicate (length range) false;
                max_eigs := replicate (length range) (Fin 0) |}).
  destruct (continuation_loop_spec E name incl track range 0 a0 s s)
    as (a & s' & Hloop & _ & Hlast & (L1 & L2 & L3 & _) & Hrec);
    [reflexivity | simpl; rewrite length_replicate; lia .. |].
  exists a. subst a0. simpl in L1, L2, L3.
  rewrite length_replicate in L1. rewrite length_replicate in L2.
  rewrite length_replicate in L3.
  split; [| auto].
  case_bool_decide as Hn.
  - unfold bind at 1. unfold ret at 1. unfold bind at 1. rewrite Hloop.
    subst s'. reflexivity.
  - unfold bind at 1. unfold dict_get at 1. unfold bind at 1. rewrite Hloop.
    subst s'. destruct (s !! name) as [v |]; reflexivity.
Qed.

(** Sweeping the intake rate, or a name that has an entry, leaves the
    mapping as it was before the call. *)
Lemma continuation_1d_restores name range incl track s :
  name = "I" \/ is_Some (s !! name) ->
  snd (continuation_1d E name range incl track s) = s.
Proof.
  intros Hname.
  destruct (continuation_1d_spec name range incl track s) as (a & -> & _).
  simpl. unfold sweep_store.
  case_bool_decide as Hn.
  - now destruct (last range).
  - destruct Hname as [? | [v Hv]]; [contradiction |]. rewrite Hv.
    destruct (last range); [rewrite insert_insert_eq |]; now apply insert_id.
Qed.

End ContinuationResults.

(** C5.  For every parameter name, range, flags and store, and whatever
    the numerical libraries do, [continuation_1d] returns (it never
    raises) sequences exactly as long as the range, and index [i] holds
    the outcome of the pass for element [i] of the range: the NaN
    vector, [False] and NaN when that pass failed, its values
    otherwise.  The stability flags and the leading eigenvalues are
    returned with [track_stability] only; without it the result holds
    the parameter values and the steady states and nothing else. *)
Theorem C5_continuation_1d_index_aligned :
  forall (E : Solvers) (param_name : string) (param_range : list fl)
         (include_upregulation track_stability : bool) (s : params),
  exists r s',
    continuation_1d E param_name param_range include_upregulation track_stability s
    = (Ok r, s')
    /\ cont_param_values r = param_range
    /\ length (cont_steady_states r) = length param_range
    /\ (if track_stability
        then exists st me,
               cont_stability r = Some st /\ cont_max_eigenvalue r = Some me
               /\ length st = length param_range
               /\ length me = length param_range
        else cont_stability r = None /\ cont_max_eigenvalue r = None)
    /\ forall i p, param_range !! i = Some p ->
         match fst (pass E (sweep_input param_name p) include_upregulation
                      track_stability (sweep_store param_name p s)) with
         | Raise _ =>
             cont_steady_states r !! i = Some nan_state
             /\ (forall st, cont_stability r = Some st -> st !! i = Some false)
             /\ (forall me, cont_max_eigenvalue r = Some me -> me !! i = Some NaN)
         | Ok (y, so) =>
             cont_steady_states r !! i = Some y
             /\ forall b m, so = Some (b, m) ->
                  (exists st, cont_stability r = Some st /\ st !! i = Some b)
                  /\ (exists me, cont_max_eigenvalue r = Some me /\ me !! i = Some m)
         end.
Proof.
  intros E name range incl track s.
  destruct (continuation_1d_spec E name range incl track s)
    as (a & Hrun & L1 & L2 & L3 & Hrec).
  eexists. eexists. split; [exact Hrun |]. simpl.
  split; [reflexivity |]. split; [exact L1 |]. split.
  - destruct track; [| now split]. exists (is_stable a), (max_eigs a). auto.
  - intros i p Hi. specialize (Hrec i p Hi). unfold recorded_at in Hrec.
    destruct (fst (pass E _ incl track _)) as [[y so] | e] eqn:Hpass.
    + destruct Hrec as [Hy Hso]. split; [exact Hy |].
      intros b m ->. destruct (Hso b m eq_refl) as [Hb Hm].
      destruct track.
      * split; eexists; split; eauto.
      * apply pass_untracked in Hpass. discriminate.
    + destruct Hrec as (Hy & Hb & Hm). split; [exact Hy |].
      destruct track; split; intros ? [= <-]; assumption.
Qed.

Lemma C5_continuation_1d_index_aligned_witness :
  exists r s',
    continuation_1d (Coarse.solvers false) "k_des" [Fin 1; Fin 2] true true (init None)
    = (Ok r, s')
    /\ length (cont_steady_states r) = 2%nat
    /\ cont_steady_states r !! 1%nat = Some nan_state.
Proof.
  destruct (C5_continuation_1d_index_aligned (Coarse.solvers false) "k_des"
              [Fin 1; Fin 2] true true (init None))
    as (r & s' & Hrun & _ & Hlen & _ & Hrec).
  exists r, s'. split; [exact Hrun |]. split; [exact Hlen |].
  specialize (Hrec 1%nat (Fin 2) eq_refl).
  vm_compute in Hrec. exact (proj1 Hrec).
Defined.

(** C5, the claim as stated fails: the call of
    [test_monotonic_bifurcation], a sweep of the intake rate with
    [track_stability=False], here over the two values 0 and 1, returns
    its two steady states and neither stability flags nor leading
    eigenvalues: of the three sequences of the claim only one is
    returned. *)
Lemma C5_untracked_sweep_returns_states_only :
  exists r s',
    continuation_1d (Coarse.solvers true) "I" [Fin 0; Fin 1] false false
      (init None)
    = (Ok r, s')
    /\ length (cont_steady_states r) = 2%nat
    /\ cont_stability r = None
    /\ cont_max_eigenvalue r = None.
Proof.
  destruct (continuation_1d_spec (Coarse.solvers true) "I" [Fin 0; Fin 1]
              false false (init None))
    as (a & Hrun & L1 & _).
  eexists. eexists. split; [exact Hrun |].
  split; [exact L1 |]. split; reflexivity.
Qed.

(** *** critical_transition_threshold *)

Lemma Qgtb_spec x y : Qgtb x y = true <-> (y < x)%Q.
Proof.
  unfold Qgtb. rewrite Qgt_alt.
  destruct (x ?= y)%Q; split; intros; congruence.
Qed.

Lemma fl_gtb_mul_same_sign a b :
  isnan a = false -> isnan b = false ->
  fl_gtb (a * b)%num (Fin 0) = true <-> same_sign a b.
Proof.
  destruct a as [x |], b as [y |]; try discriminate. intros _ _. simpl.
  rewrite Qgtb_spec, Qred_correct. split.
  - intros Hxy.
    destruct (Qlt_le_dec 0 x) as [Hx | Hx].
    + left. split; [exact Hx |].
      destruct (Qlt_le_dec 0 y) as [Hy | Hy]; [exact Hy |]. nra.
    + right. destruct (Qlt_le_dec y 0) as [Hy | Hy]; [| nra].
      split; [| exact Hy].
      destruct (Qlt_le_dec x 0) as [Hx' | Hx']; [exact Hx' | nra].
  - intros [[Hx Hy] | [Hx Hy]]; nra.
Qed.

Section ThresholdProofs.
Variable E : Solvers.

(** The threshold function always returns, a number or NaN, and leaves
    the store of a sweep pass behind. *)
Lemma threshold_func_spec name idx tv p s :
  exists v, threshold_func E name idx tv p s = (Ok v, sweep_store name p s).
Proof.
  unfold threshold_func, sweep_store.
  case_bool_decide as Hn.
  - rewrite (bind_ok _ _ s p s) by reflexivity.
    apply try_except_total. frame.
  - rewrite (bind_ok _ _ s (Fin 0) (<[name := p]> s)) by reflexivity.
    apply try_except_total. frame.
Qed.

(** The root search calls the threshold function some number of times;
    each call overwrites the swept parameter, none restores it. *)
Lemma drive_threshold_store name idx tv (st : strategy fl fl fl) s0 :
  name <> "I" ->
  forall n seen x,
  exists r x',
    drive n st (threshold_func E name idx tv) seen (<[name := x]> s0)
    = (r, <[name := x']> s0).
Proof.
  intros Hn n. induction n as [| n IH]; intros seen x; simpl.
  - now exists (spent st seen), x.
  - destruct (next st seen) as [q | r | e].
    + destruct (threshold_func_spec name idx tv q (<[name := x]> s0)) as [v Hv].
      rewrite (bind_ok _ _ _ _ _ Hv).
      unfold sweep_store. rewrite bool_decide_eq_false_2 by exact Hn.
      rewrite insert_insert_eq. apply IH.
    + now exists (Ok r), x.
    + now exists (Raise e), x.
Qed.

Lemma threshold_search_store name lo hi idx tv s0 x :
  name <> "I" ->
  exists r x',
    threshold_search E name (lo, hi) idx tv (<[name := x]> s0)
    = (r, <[name := x']> s0).
Proof.
  intros Hn. unfold threshold_search, try_except, bind, run. simpl.
  destruct (drive_threshold_store name idx tv (brentq E lo hi) s0 Hn
              (budget (brentq E lo hi)) [] x) as (r & x' & ->).
  destruct r as [c | e]; eexists; eexists; reflexivity.
Qed.

(** The function up to the root search. *)
Lemma critical_transition_threshold_unfold name lo hi var idx tv s v1 v2 :
  var_indices !! var = Some idx ->
  threshold_func E name idx tv lo s = (Ok v1, sweep_store name lo s) ->
  threshold_func E name idx tv hi (sweep_store name lo s)
  = (Ok v2, sweep_store name hi s) ->
  critical_transition_threshold E name (lo, hi) var tv s
  = if isnan v1 || isnan v2 then (Ok None, sweep_store name hi s)
    else if fl_gtb (v1 * v2)%num (Fin 0) then (Ok None, sweep_store name hi s)
         else threshold_search E name (lo, hi) idx tv (sweep_store name hi s).
Proof.
  intros Hvar H1 H2. unfold critical_transition_threshold. rewrite Hvar.
  rewrite (bind_ok _ _ s idx s) by reflexivity. simpl.
  rewrite (bind_ok _ _ _ _ _ H1). rewrite (bind_ok _ _ _ _ _ H2).
  destruct (isnan v1 || isnan v2); [reflexivity |].
  destruct (fl_gtb _ _); reflexivity.
Qed.

Lemma threshold_endpoints name idx tv lo hi s :
  exists v1 v2,
    threshold_func E name idx tv lo s = (Ok v1, sweep_store name lo s)
    /\ threshold_func E name idx tv hi (sweep_store name lo s)
       = (Ok v2, sweep_store name hi s).
Proof.
  destruct (threshold_func_spec name idx tv lo s) as [v1 H1].
  destruct (threshold_func_spec name idx tv hi (sweep_store name lo s)) as [v2 H2].
  rewrite sweep_store_twice in H2. now exists v1, v2.
Qed.

End ThresholdProofs.

(** C8.  With a valid threshold variable, both end points of the range
    are evaluated (the evaluation returns a number, or NaN when the
    steady state fails).  The result is [None] whenever one value is NaN
    or the two have the same sign, and the root search runs exactly when
    neither is the case.  In particular two positive end values give
    [None]. *)
Theorem C8_threshold_not_found_unless_signs_differ :
  forall (E : Solvers) (param_name : string) (lo hi : fl)
         (threshold_var : string) (var_idx : var) (threshold_value : fl)
         (s : params),
    var_indices !! threshold_var = Some var_idx ->
    exists val_min val_max,
      threshold_func E param_name var_idx threshold_value lo s
      = (Ok val_min, sweep_store param_name lo s)
      /\ threshold_func E param_name var_idx threshold_value hi
           (sweep_store param_name lo s)
         = (Ok val_max, sweep_store param_name hi s)
      /\ (isnan val_min = true \/ isnan val_max = true \/ same_sign val_min val_max ->
          critical_transition_threshold E param_name (lo, hi) threshold_var
            threshold_value s
          = (Ok None, sweep_store param_name hi s))
      /\ (isnan val_min = false -> isnan val_max = false ->
          ~ same_sign val_min val_max ->
          critical_transition_threshold E param_name (lo, hi) threshold_var
            threshold_value s
          = threshold_search E param_name (lo, hi) var_idx threshold_value
              (sweep_store param_name hi s))
      /\ (positive val_min -> positive val_max ->
          fst (critical_transition_threshold E param_name (lo, hi) threshold_var
                 threshold_value s)
          = Ok None).
Proof.
  intros E name lo hi var idx tv s Hvar.
  destruct (threshold_endpoints E name idx tv lo hi s) as (v1 & v2 & H1 & H2).
  exists v1, v2. split; [exact H1 |]. split; [exact H2 |].
  rewrite (critical_transition_threshold_unfold E name lo hi var idx tv s v1 v2 Hvar H1 H2).
  assert (Hearly : isnan v1 = true \/ isnan v2 = true \/ same_sign v1 v2 ->
                   (if isnan v1 || isnan v2 then (Ok None, sweep_store name hi s)
                    else if fl_gtb (v1 * v2)%num (Fin 0)
                         then (Ok None, sweep_store name hi s)
                         else threshold_search E name (lo, hi) idx tv
                                (sweep_store name hi s))
                   = (Ok None, sweep_store name hi s)).
  { intros Hcase.
    destruct (isnan v1) eqn:N1; [reflexivity |].
    destruct (isnan v2) eqn:N2; [reflexivity |]. cbn [orb].
    destruct Hcase as [? | [? | Hsame]]; try discriminate.
    apply (fl_gtb_mul_same_sign v1 v2 N1 N2) in Hsame. now rewrite Hsame. }
  split; [exact Hearly |]. split.
  - intros N1 N2 Hdiff. rewrite N1, N2. cbn [orb].
    destruct (fl_gtb (v1 * v2)%num (Fin 0)) eqn:Hgt; [| reflexivity].
    apply (fl_gtb_mul_same_sign v1 v2 N1 N2) in Hgt. contradiction.
  - intros P1 P2. rewrite Hearly; [reflexivity |].
    right. right. destruct v1, v2; simpl in *; auto.
Qed.

Lemma C8_threshold_not_found_unless_signs_differ_witness :
  fst (critical_transition_threshold (Coarse.solvers true) "I" (Fin 0, Fin 2) "D"
         (Fin 0.25) (init None))
  = Ok None.
Proof.
  destruct (C8_threshold_not_found_unless_signs_differ (Coarse.solvers true) "I"
              (Fin 0) (Fin 2) "D" vD (Fin 0.25) (init None) eq_refl)
    as (v1 & v2 & H1 & H2 & _ & _ & Hpos).
  apply (f_equal fst) in H1. apply (f_equal fst) in H2.
  vm_compute in H1. vm_compute in H2.
  injection H1 as <-. injection H2 as <-.
  apply Hpos; reflexivity.
Defined.

(** C2.  [critical_transition_threshold] on a named parameter writes the
    parameter at every evaluation of its threshold function and has no
    restore: the mapping it leaves is the one of the call with the
    parameter overwritten by the last point evaluated.  When the end
    points give NaN or values of the same sign that point is the upper
    end of the range. *)
Theorem C2_critical_threshold_overwrites_parameter :
  forall (E : Solvers) (param_name : string) (lo hi : fl)
         (threshold_var : string) (var_idx : var) (threshold_value : fl)
         (s : params),
    param_name <> "I" ->
    var_indices !! threshold_var = Some var_idx ->
    (exists r x,
       critical_transition_threshold E param_name (lo, hi) threshold_var
         threshold_value s
       = (r, <[param_name := x]> s))
    /\ exists val_min val_max,
         threshold_func E param_name var_idx threshold_value lo s
         = (Ok val_min, <[param_name := lo]> s)
         /\ threshold_func E param_name var_idx threshold_value hi
              (<[param_name := lo]> s)
            = (Ok val_max, <[param_name := hi]> s)
         /\ (isnan val_min = true \/ isnan val_max = true
             \/ same_sign val_min val_max ->
             critical_transition_threshold E param_name (lo, hi) threshold_var
               threshold_value s
             = (Ok None, <[param_name := hi]> s)).
Proof.
  intros E name lo hi var idx tv s Hn Hvar.
  destruct (threshold_endpoints E name idx tv lo hi s) as (v1 & v2 & H1 & H2).
  pose proof (critical_transition_threshold_unfold E name lo hi var idx tv s
                v1 v2 Hvar H1 H2) as Hrun.
  unfold sweep_store in H1, H2, Hrun.
  rewrite bool_decide_eq_false_2 in H1, H2, Hrun by exact Hn.
  split.
  - rewrite Hrun.
    destruct (isnan v1 || isnan v2); [now exists (Ok None), hi |].
    destruct (fl_gtb _ _); [now exists (Ok None), hi |].
    now apply threshold_search_store.
  - exists v1, v2. split; [exact H1 |]. split; [exact H2 |].
    intros Hcase. rewrite Hrun.
    destruct (isnan v1) eqn:N1; [reflexivity |].
    destruct (isnan v2) eqn:N2; [reflexivity |]. cbn [orb].
    destruct Hcase as [? | [? | Hsame]]; try discriminate.
    apply (fl_gtb_mul_same_sign v1 v2 N1 N2) in Hsame. now rewrite Hsame.
Qed.

Lemma C2_critical_threshold_overwrites_parameter_witness :
  init None !! "k_des" = Some (Fin 0.05)
  /\ snd (critical_transition_threshold (Coarse.solvers true) "k_des"
            (Fin 0, Fin 2) "D" (Fin 1) (init None)) !! "k_des"
     = Some (Fin 2).
Proof.
  split; [reflexivity |].
  destruct (C2_critical_threshold_overwrites_parameter (Coarse.solvers true)
              "k_des" (Fin 0) (Fin 2) "D" vD (Fin 1) (init None))
    as (_ & v1 & v2 & H1 & H2 & Hearly); [discriminate | reflexivity |].
  apply (f_equal fst) in H1. apply (f_equal fst) in H2.
  vm_compute in H1. vm_compute in H2.
  injection H1 as <-. injection H2 as <-.
  rewrite Hearly.
  - apply lookup_insert_eq.
  - right. right. simpl. right. split; reflexivity.
Defined.

(** *** Names that are not in the mapping *)

(** [continuation_1d] on a name without an entry: [params.get] answers
    [None], every pass writes the name, and the guard
    [original_param is not None] skips the restore, so the last value of
    the range stays in the mapping. *)
Lemma continuation_1d_unknown_name E name range incl track s p :
  name <> "I" -> s !! name = None -> last range = Some p ->
  exists r, continuation_1d E name range incl track s = (Ok r, <[name := p]> s).
Proof.
  intros Hn Hs Hlast.
  destruct (continuation_1d_spec E name range incl track s) as (a & Hrun & _).
  eexists. rewrite Hrun. f_equal. simpl.
  rewrite bool_decide_eq_false_2 by exact Hn. rewrite Hs, Hlast.
  unfold sweep_store. now rewrite bool_decide_eq_false_2 by exact Hn.
Qed.

(** C7, the claim as stated fails: [continuation_1d] called with a name
    that is neither the intake rate nor a key of the mapping returns
    normally and leaves a new entry for that name, and so does
    [critical_transition_threshold] for its parameter name. *)
Lemma C7_unknown_name_accepted :
  init None !! "bogus" = None
  /\ (exists r, continuation_1d (Coarse.solvers true) "bogus" [Fin 1] true true
                  (init None)
                = (Ok r, <["bogus" := Fin 1]> (init None)))
  /\ (exists r, critical_transition_threshold (Coarse.solvers true) "bogus"
                  (Fin 0, Fin 2) "D" (Fin 1) (init None)
                = (Ok r, <["bogus" := Fin 2]> (init None))).
Proof.
  split; [reflexivity |]. split.
  - apply continuation_1d_unknown_name; [discriminate | reflexivity | reflexivity].
  - exists None. vm_compute. reflexivity.
Qed.

(** C7, amended.  [parameter_sensitivity] called with a name that has no
    entry in the mapping, and [critical_transition_threshold] called
    with a threshold variable that is not one of N, R_a, R_d, R_T, D,
    raise [KeyError] carrying that name at their first statement, before
    anything is computed or written. *)
Theorem C7_unknown_name_KeyError :
  forall (E : Solvers) (param_name : string) (param_range : list fl)
         (I_const : fl) (include_upregulation : bool)
         (swept : string) (search_range : fl * fl)
         (threshold_var : string) (threshold_value : fl) (s : params),
    s !! param_name = None ->
    var_indices !! threshold_var = None ->
    parameter_sensitivity E param_name param_range I_const include_upregulation s
    = (Raise (KeyError param_name), s)
    /\ critical_transition_threshold E swept search_range threshold_var
         threshold_value s
       = (Raise (KeyError threshold_var), s).
Proof.
  intros E name range I_const incl swept sr var tv s Hs Hvar. split.
  - unfold parameter_sensitivity. apply bind_raise.
    unfold getitem. now rewrite Hs.
  - unfold critical_transition_threshold. rewrite Hvar. now apply bind_raise.
Qed.

Lemma C7_unknown_name_KeyError_witness :
  parameter_sensitivity (Coarse.solvers true) "bogus" [Fin 1] (Fin 0) true (init None)
  = (Raise (KeyError "bogus"), init None)
  /\ critical_transition_threshold (Coarse.solvers true) "k_des" (Fin 0, Fin 2)
       "dopamine" (Fin 1) (init None)
     = (Raise (KeyError "dopamine"), init None).
Proof.
  apply C7_unknown_name_KeyError; reflexivity.
Defined.

(** *** hysteresis_loop *)

Lemma fl_ltb_Fin a b :
  fl_ltb a b = true -> exists x y, a = Fin x /\ b = Fin y /\ (x < y)%Q.
Proof.
  unfold fl_ltb, fl_gtb. destruct b as [y |], a as [x |]; try discriminate.
  intros Hlt. apply Qgtb_spec in Hlt. now exists x, y.
Qed.

Lemma fl_ltb_gtb a b : fl_ltb a b = true -> fl_gtb b a = true.
Proof. now unfold fl_ltb. Qed.

Lemma fl_ltb_not_gtb a b : fl_ltb a b = true -> fl_gtb a b = false.
Proof.
  intros Hlt. destruct (fl_ltb_Fin a b Hlt) as (x & y & -> & -> & Hxy). simpl.
  destruct (Qgtb x y) eqn:Hgt; [| reflexivity].
  apply Qgtb_spec in Hgt. lra.
Qed.

Lemma select_length {X} (a : list X) (mask : list bool) :
  length a = length mask ->
  length (select a mask) = length (filter (fun b => b = true) mask).
Proof.
  revert a. induction mask as [| b mask IH]; intros [| x a] Hlen;
    try discriminate; [reflexivity |].
  unfold select in *. simpl. rewrite !filter_cons. simpl.
  destruct b; repeat case_decide; try congruence; simpl;
    rewrite IH by (simpl in Hlen; lia); reflexivity.
Qed.

Lemma np_any_filter (mask : list bool) :
  length (filter (fun b => b = true) mask) <> 0%nat -> np_any mask = true.
Proof.
  unfold np_any. induction mask as [| b mask IH]; [intros H; now contradict H |].
  rewrite filter_cons. destruct b; [reflexivity |].
  case_decide; [discriminate |]. exact IH.
Qed.

Lemma estimate_width_ends up down D_up D_down u0 ul d0 dl s :
  head up = Some u0 -> last up = Some ul ->
  head down = Some d0 -> last down = Some dl ->
  estimate_width up down D_up D_down s
  = (let p_min := py_max u0 dl in
     let p_max := py_min ul d0 in
     if fl_gtb p_max p_min
     then (if np_any (overlap_indices up p_min p_max)
              && np_any (overlap_indices down p_min p_max)
           then match np_sub (select D_up (overlap_indices up p_min p_max))
                             (select D_down (overlap_indices down p_min p_max)) with
                | Ok diff => np_nanmax (map fl_abs diff)
                | Raise e => Raise e
                end
           else Ok (Fin 0))
     else Ok (Fin 0), s).
Proof.
  intros Hu0 Hul Hd0 Hdl. unfold estimate_width, first_item, last_item.
  rewrite Hul, Hdl.
  destruct up as [| u up']; [discriminate |]. injection Hu0 as ->.
  destruct down as [| d down']; [discriminate |]. injection Hd0 as ->.
  unfold bind, ret, lift; simpl.
  destruct (fl_gtb _ _); [| reflexivity].
  destruct (_ && _); [| reflexivity].
  destruct (np_sub _ _); reflexivity.
Qed.

Lemma intervals_disjoint_no_overlap up down u0 ul d0 dl :
  head up = Some u0 -> last up = Some ul ->
  head down = Some d0 -> last down = Some dl ->
  intervals_disjoint up down ->
  fl_gtb (py_min ul d0) (py_max u0 dl) = false.
Proof.
  intros Hu0 Hul Hd0 Hdl Hdis.
  apply head_Some_elem_of in Hu0, Hd0. apply last_Some_elem_of in Hul, Hdl.
  unfold py_min, py_max. simpl.
  destruct Hdis as [Hlt | Hlt].
  - rewrite (fl_ltb_not_gtb ul d0) by auto.
    rewrite (fl_ltb_gtb u0 dl) by auto.
    apply fl_ltb_not_gtb. auto.
  - rewrite (fl_ltb_gtb d0 ul) by auto.
    rewrite (fl_ltb_not_gtb dl u0) by auto.
    apply fl_ltb_not_gtb. auto.
Qed.

Section HysteresisProofs.
Variable E : Solvers.

(** Both sweeps return, with one row per element of their range. *)
Lemma hysteresis_loop_unfold up down name s :
  exists cu cd s',
    length (cont_steady_states cu) = length up
    /\ length (cont_steady_states cd) = length down
    /\ hysteresis_loop E up down name s
       = match estimate_width up down (map st_D (cont_steady_states cu))
                 (map st_D (cont_steady_states cd)) s' with
         | (Ok w, s'') =>
             (Ok {| up_sweep := cu; down_sweep := cd; hysteresis_width := w |}, s'')
         | (Raise e, s'') => (Raise e, s'')
         end.
Proof.
  destruct (continuation_1d_spec E name up true true s) as (au & Hu & Lu & _).
  match type of Hu with _ = (_, ?s1) => set (s1' := s1) in * end.
  destruct (continuation_1d_spec E name down true true s1') as (ad & Hd & Ld & _).
  match type of Hd with _ = (_, ?s2) => set (s2' := s2) in * end.
  exists {| cont_param_values := up;
            cont_steady_states := steady_states au;
            cont_stability := Some (is_stable au);
            cont_max_eigenvalue := Some (max_eigs au) |},
         {| cont_param_values := down;
            cont_steady_states := steady_states ad;
            cont_stability := Some (is_stable ad);
            cont_max_eigenvalue := Some (max_eigs ad) |}, s2'.
  split; [exact Lu |]. split; [exact Ld |].
  unfold hysteresis_loop.
  rewrite (bind_ok _ _ _ _ _ Hu). rewrite (bind_ok _ _ _ _ _ Hd).
  unfold bind at 1. cbn [cont_steady_states].
  destruct (estimate_width _ _ _ _ s2') as [[w | e] s3]; reflexivity.
Qed.

End HysteresisProofs.

(** What [hysteresis_loop] does compute.  For non-empty ranges, with
    [p_min = max(up[0], down[-1])] and [p_max = min(up[-1], down[0])]:
    - when the covered intervals do not overlap, the width is 0;
    - when [p_max > p_min] and the two ranges have the same number of
      points (at least one) in [[p_min, p_max]], the width is the
      NaN-ignoring maximum of the absolute differences between the
      dopamine values of the two selections, paired by position. *)
Lemma hysteresis_loop_width :
  forall (E : Solvers) (param_range_up param_range_down : list fl)
         (param_name : string) (s : params) (u0 ul d0 dl : fl),
    head param_range_up = Some u0 -> last param_range_up = Some ul ->
    head param_range_down = Some d0 -> last param_range_down = Some dl ->
    let p_min := py_max u0 dl in
    let p_max := py_min ul d0 in
    (intervals_disjoint param_range_up param_range_down ->
     exists h s',
       hysteresis_loop E param_range_up param_range_down param_name s = (Ok h, s')
       /\ hysteresis_width h = Fin 0)
    /\ (fl_gtb p_max p_min = true ->
        points_in param_range_up p_min p_max = points_in param_range_down p_min p_max ->
        points_in param_range_up p_min p_max <> 0%nat ->
        exists h s',
          hysteresis_loop E param_range_up param_range_down param_name s = (Ok h, s')
          /\ np_nanmax
               (map fl_abs
                  (zip_with sub
                     (select (map st_D (cont_steady_states (up_sweep h)))
                             (overlap_indices param_range_up p_min p_max))
                     (select (map st_D (cont_steady_states (down_sweep h)))
                             (overlap_indices param_range_down p_min p_max))))
             = Ok (hysteresis_width h)).
Proof.
  intros E up down name s u0 ul d0 dl Hu0 Hul Hd0 Hdl p_min p_max.
  destruct (hysteresis_loop_unfold E up down name s)
    as (cu & cd & s' & Lu & Ld & Hrun).
  rewrite (estimate_width_ends up down _ _ u0 ul d0 dl s' Hu0 Hul Hd0 Hdl) in Hrun.
  cbv zeta in Hrun. fold p_min p_max in Hrun.
  split.
  - intros Hdis.
    pose proof (intervals_disjoint_no_overlap up down u0 ul d0 dl
                  Hu0 Hul Hd0 Hdl Hdis) as Hno.
    fold p_min p_max in Hno. rewrite Hno in Hrun.
    eexists. eexists. split; [exact Hrun | reflexivity].
  - intros Hgt Hsame Hsome. rewrite Hgt in Hrun.
    unfold points_in in Hsame, Hsome.
    rewrite (np_any_filter _ Hsome) in Hrun.
    rewrite (np_any_filter (overlap_indices down p_min p_max)) in Hrun
      by (rewrite <- Hsame; exact Hsome).
    cbn [andb] in Hrun.
    remember (select (map st_D (cont_steady_states cu))
                (overlap_indices up p_min p_max)) as su eqn:Hsu.
    remember (select (map st_D (cont_steady_states cd))
                (overlap_indices down p_min p_max)) as sd eqn:Hsd.
    assert (Lsu : length su = length (filter (fun b => b = true)
                                        (overlap_indices up p_min p_max))).
    { subst su. apply select_length.
      unfold overlap_indices. rewrite !length_map. exact Lu. }
    assert (Lsd : length sd = length (filter (fun b => b = true)
                                        (overlap_indices down p_min p_max))).
    { subst sd. apply select_length.
      unfold overlap_indices. rewrite !length_map. exact Ld. }
    unfold np_sub in Hrun.
    rewrite bool_decide_eq_true_2 in Hrun by congruence.
    destruct su as [| a su']; [simpl in Lsu; congruence |].
    destruct sd as [| b sd']; [simpl in Lsd; congruence |].
    eexists. eexists. split; [exact Hrun |].
    cbn [up_sweep down_sweep hysteresis_width]. rewrite <- Hsu, <- Hsd.
    reflexivity.
Qed.

Example hysteresis_loop_disjoint_ranges :
  exists h s',
    hysteresis_loop (Coarse.solvers true) [Fin 0; Fin 1] [Fin 3; Fin 2] "I" (init None)
    = (Ok h, s')
    /\ hysteresis_width h = Fin 0.
Proof.
  apply (proj1 (hysteresis_loop_width (Coarse.solvers true) [Fin 0; Fin 1]
                  [Fin 3; Fin 2] "I" (init None) (Fin 0) (Fin 1) (Fin 3) (Fin 2)
                  eq_refl eq_refl eq_refl eq_refl)).
  left. intros x y Hx Hy.
  apply list_elem_of_In in Hx, Hy. simpl in Hx, Hy.
  destruct Hx as [<- | [<- | []]], Hy as [<- | [<- | []]]; reflexivity.
Qed.

(** C9.  The up range [0, 1, 2] and the down range [2, 0] cover the same
    interval, so their overlap is not empty: three points of the up
    sweep and two of the down sweep lie in it.  Whatever the numerical
    libraries return for the five steady states, the subtraction of the
    two selections cannot be broadcast, and [hysteresis_loop] raises
    instead of returning a width. *)
Theorem C9_overlap_without_width :
  forall (E : Solvers) (param_name : string) (s : params),
    fst (hysteresis_loop E [Fin 0; Fin 1; Fin 2] [Fin 2; Fin 0] param_name s)
    = Raise (ValueError "operands could not be broadcast together").
Proof.
  intros E name s.
  destruct (hysteresis_loop_unfold E [Fin 0; Fin 1; Fin 2] [Fin 2; Fin 0] name s)
    as (cu & cd & s' & Lu & Ld & Hrun).
  rewrite Hrun.
  rewrite (estimate_width_ends [Fin 0; Fin 1; Fin 2] [Fin 2; Fin 0] _ _
             (Fin 0) (Fin 2) (Fin 2) (Fin 0) s' eq_refl eq_refl eq_refl eq_refl).
  destruct (cont_steady_states cu) as [| a1 [| a2 [| a3 [| ? ?]]]]; try discriminate Lu.
  destruct (cont_steady_states cd) as [| b1 [| b2 [| ? ?]]]; try discriminate Ld.
  reflexivity.
Qed.

(** *** The Jacobian and the partial derivatives of the right-hand side *)

(** A function that is affine with slope [a] near [x0] has derivative
    [a] at [x0]. *)
Lemma affine_derivative (f : R -> R) (x0 a delta : R) :
  (0 < delta)%R ->
  (forall h, (Rabs h < delta)%R -> f (x0 + h)%R = (f x0 + a * h)%R) ->
  derivable_pt_lim f x0 a.
Proof.
  intros Hdelta Haff eps Heps.
  exists (mkposreal delta Hdelta). intros h Hh0 Hh. simpl in Hh.
  rewrite (Haff h Hh).
  replace ((f x0 + a * h - f x0) / h - a)%R with 0%R by (field; exact Hh0).
  rewrite Rabs_R0. exact Heps.
Qed.

(** Where receptors are available, [R_T - R_a - R_d > 0], the clamp is
    inactive around the point and every entry of the matrix computed by
    [jacobian] is the partial derivative of the right-hand side. *)
Lemma jacobian_entries_partial_derivatives (p : string -> R) (I : R) (y : state R) :
  (0 < st_R_T y - st_R_a y - st_R_d y)%R ->
  forall i j,
    derivable_pt_lim (partial_map p I y i j) (state_get j y)
      (entry (jacobian_entries p y) i j).
Proof.
  intros Havail i j. destruct y as [N Ra Rd RT D]. simpl in Havail.
  apply (affine_derivative _ _ _ (RT - Ra - Rd)%R Havail).
  intros h Hh. apply Rabs_def2 in Hh. destruct Hh as [Hh1 Hh2].
  destruct i, j;
    unfold partial_map, entry, jacobian_entries, dynamics_rhs, py_max;
    simpl; unfold R_gtb;
    repeat (destruct (Rlt_dec _ _)); try lra; ring.
Qed.

Lemma real_params_default_k_on : real_params (init None) "k_on" = (1 / 2)%R.
Proof.
  unfold real_params.
  replace (init None !! "k_on") with (Some (Fin 0.5)) by reflexivity.
  simpl. unfold Q2R. simpl. lra.
Qed.

(** C4.  At the state [N = R_a = R_d = R_T = 1, D = 0] the clamp of
    [dynamics] is active ([R_T - R_a - R_d = -1]), so [dR_a/dt] does not
    depend on [N] and its partial derivative with respect to [N] is 0;
    [jacobian], which computes [R_available] without the clamp, puts
    [k_on * (-1) = -0.5] in entry (1, 0).  That entry is not the partial
    derivative of the right-hand side. *)
Theorem C4_jacobian_ignores_clamp :
  let p := real_params (init None) in
  let y := State 1%R 1%R 1%R 1%R 0%R in
  entry (jacobian_entries p y) vR_a vN = (- (1 / 2))%R
  /\ derivable_pt_lim (partial_map p 0%R y vR_a vN) 1%R 0%R
  /\ ~ derivable_pt_lim (partial_map p 0%R y vR_a vN) 1%R
         (entry (jacobian_entries p y) vR_a vN).
Proof.
  intros p y.
  assert (HJ : entry (jacobian_entries p y) vR_a vN = (- (1 / 2))%R).
  { unfold entry, jacobian_entries, y, p.
    cbn [state_get st_N st_R_a mul sub R_arith].
    rewrite real_params_default_k_on. lra. }
  assert (Hd : derivable_pt_lim (partial_map p 0%R y vR_a vN) 1%R 0%R).
  { apply (affine_derivative _ _ _ 1%R); [lra |].
    intros h _. unfold partial_map, dynamics_rhs, py_max, y. simpl.
    unfold R_gtb. destruct (Rlt_dec _ _); [lra | ring]. }
  split; [exact HJ |]. split; [exact Hd |].
  intros Hd'. rewrite HJ in Hd'.
  pose proof (uniqueness_limite _ _ _ _ Hd Hd'). lra.
Qed.

(** *** The Jacobian at the baseline *)

(** An eigenvalue with real part 0 makes [eigenanalysis] report
    [is_stable = False]. *)
Lemma eigenanalysis_zero_unstable E y I_const s J r :
  jacobian y I_const s = (Ok J, s) ->
  eig E J = Ok r ->
  Fin 0 ∈ map fst (eig_values r) ->
  exists a, eigenanalysis E y I_const s = (Ok a, s) /\ ea_is_stable a = false.
Proof.
  intros HJ Heig Hzero. unfold eigenanalysis.
  rewrite (bind_ok _ _ _ _ _ HJ).
  rewrite (bind_ok _ _ s r s) by (unfold lift; now rewrite Heig).
  eexists. split; [reflexivity |]. simpl.
  apply not_true_is_false. intros Hall.
  rewrite forallb_forall in Hall.
  apply list_elem_of_In in Hzero. specialize (Hall _ Hzero).
  discriminate.
Qed.

(** C3.  With the default parameters the Jacobian at the baseline state
    has an all-zero [R_T] column: the unit vector of [R_T] is an
    eigenvector for the eigenvalue 0.  Not every eigenvalue has a
    negative real part, and [eigenanalysis] reports [is_stable = False]
    as soon as the eigenvalue routine returns that eigenvalue;
    [test_stability_baseline] asserts the opposite. *)
Theorem C3_baseline_has_zero_eigenvalue :
  baseline_state (init None) = (Ok default_baseline, init None)
  /\ jacobian default_baseline (Fin 0) (init None)
     = (Ok default_baseline_jacobian, init None)
  /\ eigenpair default_baseline_jacobian (Fin 0)
       (State (Fin 0) (Fin 0) (Fin 0) (Fin 1) (Fin 0))
  /\ forall (E : Solvers) (r : EigResult),
       eig E default_baseline_jacobian = Ok r ->
       Fin 0 ∈ map fst (eig_values r) ->
       exists a,
         eigenanalysis E default_baseline (Fin 0) (init None) = (Ok a, init None)
         /\ ea_is_stable a = false.
Proof.
  assert (HJ : jacobian default_baseline (Fin 0) (init None)
               = (Ok default_baseline_jacobian, init None))
    by (vm_compute; reflexivity).
  split; [vm_compute; reflexivity |]. split; [exact HJ |]. split.
  - split; [discriminate | vm_compute; reflexivity].
  - intros E r. now apply eigenanalysis_zero_unstable.
Qed.

Lemma C3_baseline_has_zero_eigenvalue_witness :
  exists a,
    eigenanalysis (Coarse.solvers true) default_baseline (Fin 0) (init None)
    = (Ok a, init None)
    /\ ea_is_stable a = false.
Proof.
  destruct C3_baseline_has_zero_eigenvalue as (_ & _ & _ & Hstab).
  eapply Hstab.
  - vm_compute. reflexivity.
  - apply list_elem_of_In. simpl. auto.
Defined.

(** ** Further properties of the code *)

(** *** The keys of the parameter mapping *)

Lemma has_defaults_init user : has_defaults (init user).
Proof.
  intros k Hk. destruct user as [u |]; simpl; [| exact Hk].
  apply lookup_union_is_Some. now right.
Qed.

Lemma has_defaults_insert k v s : has_defaults s -> has_defaults (<[k := v]> s).
Proof.
  intros Hs k' Hk'. apply lookup_insert_is_Some.
  destruct (decide (k = k')); [now left | right; auto].
Qed.

Lemma has_defaults_write_all writes s :
  has_defaults s -> has_defaults (write_all writes s).
Proof.
  revert s. induction writes as [| [k v] writes IH]; intros s Hs; simpl.
  - exact Hs.
  - apply IH. now apply has_defaults_insert.
Qed.

Lemma subscripts_ok ks s :
  Forall (fun k => is_Some (s !! k)) ks ->
  subscripts ks s = (Ok (fun k => default NaN (s !! k)), s).
Proof.
  induction 1 as [| k ks [v Hv] _ IH]; simpl; [reflexivity |].
  rewrite (bind_ok _ _ s v s) by (unfold getitem; now rewrite Hv).
  exact IH.
Qed.

Lemma subscripts_missing ks s k :
  first_missing s ks = Some k ->
  subscripts ks s = (Raise (KeyError k), s).
Proof.
  unfold first_missing. induction ks as [| k' ks IH]; simpl; [discriminate |].
  rewrite filter_cons. destruct (s !! k') as [v |] eqn:Hk'.
  - case_decide; [discriminate |]. intros Hm.
    rewrite (bind_ok _ _ s v s) by (unfold getitem; now rewrite Hk').
    now apply IH.
  - case_decide; [| contradiction]. simpl. intros [= <-].
    apply bind_raise. unfold getitem. now rewrite Hk'.
Qed.

Lemma has_defaults_keys s ks :
  has_defaults s ->
  Forall (fun k => is_Some (_default_parameters !! k)) ks ->
  Forall (fun k => is_Some (s !! k)) ks.
Proof. intros Hs Hks. eapply Forall_impl; [exact Hks | exact Hs]. Qed.

Lemma dynamics_keys_default :
  Forall (fun k => is_Some (_default_parameters !! k)) dynamics_keys.
Proof. repeat constructor; vm_compute; eauto. Qed.

Lemma jacobian_keys_default :
  Forall (fun k => is_Some (_default_parameters !! k)) jacobian_keys.
Proof. repeat constructor; vm_compute; eauto. Qed.

Lemma dynamics_has_defaults s t y input_func :
  has_defaults s ->
  dynamics t y input_func s
  = (Ok (dynamics_rhs (fun k => default NaN (s !! k)) (input_func t) y), s).
Proof.
  intros Hs. unfold dynamics.
  now rewrite (bind_ok _ _ _ _ _
                 (subscripts_ok _ _ (has_defaults_keys _ _ Hs dynamics_keys_default))).
Qed.

Lemma baseline_state_has_defaults s :
  has_defaults s ->
  baseline_state s
  = (Ok (State (Fin 0) (Fin 0) (Fin 0) (default NaN (s !! "R_T_0"))
               (default NaN (s !! "D_0"))), s).
Proof.
  intros Hs. unfold baseline_state, bind, getitem, ret.
  destruct (Hs "R_T_0") as [v1 ->]; [vm_compute; eauto |].
  destruct (Hs "D_0") as [v2 ->]; [vm_compute; eauto |].
  reflexivity.
Qed.

(** X1.  A model built by [__init__] from any user dict, and then
    changed by any sequence of parameter writes, keeps an entry for
    every key the model reads: [dynamics], [baseline_state] and
    [jacobian] return and never raise [KeyError]. *)
Theorem model_reads_never_miss_a_key :
  forall (user : option params) (writes : list (string * fl))
         (t : fl) (y : state fl) (input_func : fl -> fl) (I_const : fl),
    let s := write_all writes (init user) in
    dynamics t y input_func s
    = (Ok (dynamics_rhs (fun k => default NaN (s !! k)) (input_func t) y), s)
    /\ baseline_state s
       = (Ok (State (Fin 0) (Fin 0) (Fin 0) (default NaN (s !! "R_T_0"))
                    (default NaN (s !! "D_0"))), s)
    /\ jacobian y I_const s
       = (Ok (jacobian_entries (fun k => default NaN (s !! k)) y), s).
Proof.
  intros user writes t y input_func I_const s.
  assert (Hs : has_defaults s)
    by (apply has_defaults_write_all, has_defaults_init).
  split; [now apply dynamics_has_defaults |].
  split; [now apply baseline_state_has_defaults |].
  unfold jacobian.
  now rewrite (bind_ok _ _ _ _ _
                 (subscripts_ok _ _ (has_defaults_keys _ _ Hs jacobian_keys_default))).
Qed.

(** X2.  On a mapping that lacks one of the nine keys [dynamics] reads,
    [dynamics] raises [KeyError] for the first missing key in the order
    of its formulas, [k_N], [k_on], [k_off], [k_des], [k_res], [k_D],
    [k_clear], [epsilon], [D_0] (the dopamine equation is evaluated
    before the receptor total's), and leaves the mapping alone. *)
Theorem dynamics_first_missing_key :
  forall (s : params) (t : fl) (y : state fl) (input_func : fl -> fl) (k : string),
    first_missing s dynamics_keys = Some k ->
    dynamics t y input_func s = (Raise (KeyError k), s).
Proof.
  intros s t y input_func k Hk. unfold dynamics.
  apply bind_raise. now apply subscripts_missing.
Qed.

Lemma dynamics_first_missing_key_witness :
  dynamics (Fin 0) default_baseline (fun _ => Fin 0)
    (delete "k_D" (delete "epsilon" (init None)))
  = (Raise (KeyError "k_D"), delete "k_D" (delete "epsilon" (init None))).
Proof.
  apply dynamics_first_missing_key. vm_compute. reflexivity.
Defined.

(** *** Failures of a single computation *)

(** X3.  [steady_state] does not catch a failed warm start: when the
    integrator reports [success = False], [steady_state] raises
    [RuntimeError] with the integrator's message, the root finder is not
    run, and the mapping is as before. *)
Theorem steady_state_integration_failure :
  forall (E : Solvers) (I_const : fl) (include_upregulation : bool)
         (s : params) (y0 : state fl) (sol : OdeResult),
    baseline_state s = (Ok y0, s) ->
    run (solve_ivp E (Fin 0, warm_start_horizon include_upregulation) y0 "LSODA"
           (linspace (Fin 0) (warm_start_horizon include_upregulation) 1000)
           (Fin 1e-8) (Fin 1e-10))
        (fun ty => dynamics (fst ty) (snd ty) (fun _ => I_const)) s
    = (Ok sol, s) ->
    ode_success sol = false ->
    steady_state E I_const include_upregulation s
    = (Raise (RuntimeError ("Integration failed: " +:+ ode_message sol)), s).
Proof.
  intros E I_const incl s y0 sol Hb Hrun Hfail.
  unfold steady_state. rewrite (bind_ok _ _ _ _ _ Hb).
  assert (Hsim : simulate E (Fin 0, warm_start_horizon incl) (fun _ => I_const)
                   (Some y0) None "LSODA" s
                 = (Raise (RuntimeError ("Integration failed: " +:+ ode_message sol)), s)).
  { unfold simulate. rewrite (bind_ok _ _ s y0 s) by reflexivity.
    cbn [fst snd]. rewrite (bind_ok _ _ _ _ _ Hrun). now rewrite Hfail. }
  apply bind_raise. destruct incl; cbn [negb warm_start_horizon] in *;
    now apply bind_raise.
Qed.

Lemma steady_state_integration_failure_witness :
  steady_state (Coarse.solvers false) (Fin 0.5) true (init None)
  = (Raise (RuntimeError
              "Integration failed: Required step size is less than spacing between numbers."),
     init None).
Proof.
  apply (steady_state_integration_failure (Coarse.solvers false) (Fin 0.5) true
           (init None) default_baseline
           (Coarse.frozen false default_baseline
              (linspace (Fin 0) (Fin 100000) 1000)));
    vm_compute; reflexivity.
Defined.

(** *** Sweeps and the parameter mapping *)

(** X4.  [continuation_1d] over the intake rate, or over a name that has
    an entry, leaves the parameter mapping as it was before the call,
    whatever happens in the passes. *)
Theorem continuation_1d_restores_params :
  forall (E : Solvers) (param_name : string) (param_range : list fl)
         (include_upregulation track_stability : bool) (s : params),
    param_name = "I" \/ is_Some (s !! param_name) ->
    snd (continuation_1d E param_name param_range include_upregulation
           track_stability s)
    = s.
Proof.
  intros E name range incl track s Hname.
  now apply continuation_1d_restores.
Qed.

Lemma continuation_1d_restores_params_witness :
  snd (continuation_1d (Coarse.solvers false) "k_des" [Fin 1; Fin 2] true true
         (init None))
  = init None.
Proof.
  apply continuation_1d_restores_params. right. exists (Fin 0.05).
  vm_compute. reflexivity.
Defined.

Lemma preserves_estimate_width up down D_up D_down :
  preserves (estimate_width up down D_up D_down).
Proof. unfold estimate_width. frame. Qed.

(** X5.  [hysteresis_loop] over the intake rate, or over a name that has
    an entry, leaves the parameter mapping as it was before the call,
    whether it returns a width or raises. *)
Theorem hysteresis_loop_restores :
  forall (E : Solvers) (param_range_up param_range_down : list fl)
         (param_name : string) (s : params),
    param_name = "I" \/ is_Some (s !! param_name) ->
    snd (hysteresis_loop E param_range_up param_range_down param_name s) = s.
Proof.
  intros E up down name s Hname. unfold hysteresis_loop, bind.
  pose proof (continuation_1d_restores E name up true true s Hname) as H1.
  destruct (continuation_1d E name up true true s) as [[cu | e] s1];
    simpl in H1; subst s1; [| reflexivity].
  pose proof (continuation_1d_restores E name down true true s Hname) as H2.
  destruct (continuation_1d E name down true true s) as [[cd | e] s2];
    simpl in H2; subst s2; [| reflexivity].
  pose proof (preserves_estimate_width up down (map st_D (cont_steady_states cu))
                (map st_D (cont_steady_states cd)) s) as H3.
  destruct (estimate_width _ _ _ _ s) as [[w | e] s3]; simpl in H3; subst s3;
    reflexivity.
Qed.

Lemma hysteresis_loop_restores_witness :
  snd (hysteresis_loop (Coarse.solvers true) [Fin 0; Fin 1; Fin 2] [Fin 2; Fin 0]
         "k_des" (init None))
  = init None.
Proof.
  apply hysteresis_loop_restores. right. exists (Fin 0.05). vm_compute. reflexivity.
Defined.

(** X6.  [hysteresis_loop] does not accept an empty range: both sweeps
    run, and reading the end points of the empty range then raises
    [IndexError]. *)
Theorem hysteresis_loop_empty_range :
  forall (E : Solvers) (param_range_up param_range_down : list fl)
         (param_name : string) (s : params),
    param_range_up = [] \/ param_range_down = [] ->
    fst (hysteresis_loop E param_range_up param_range_down param_name s)
    = Raise IndexError.
Proof.
  intros E up down name s Hempty.
  destruct (hysteresis_loop_unfold E up down name s)
    as (cu & cd & s' & _ & _ & ->).
  destruct up as [| u up'].
  - reflexivity.
  - destruct Hempty as [? | ->]; [discriminate |]. reflexivity.
Qed.

Lemma hysteresis_loop_empty_range_witness :
  fst (hysteresis_loop (Coarse.solvers true) [Fin 0; Fin 1] [] "I" (init None))
  = Raise IndexError.
Proof.
  apply hysteresis_loop_empty_range. now right.
Defined.



(** *** parameter_sensitivity and continuation_1d agree *)

Lemma lookup_map_eq {X Y} (f : X -> Y) (l : list Y) (r : list X) :
  length l = length r ->
  (forall i p, r !! i = Some p -> l !! i = Some (f p)) ->
  l = map f r.
Proof.
  intros Hlen Hl. apply list_eq. intros i.
  rewrite list_lookup_fmap.
  destruct (r !! i) as [p |] eqn:Hr; simpl.
  - now apply Hl.
  - apply lookup_ge_None. apply lookup_ge_None in Hr. lia.
Qed.

Lemma pass_tracked E I_const incl s y so :
  fst (pass E I_const incl true s) = Ok (y, so) -> exists b m, so = Some (b, m).
Proof.
  unfold pass, bind, lift, ret.
  destruct (steady_state E I_const incl s) as [[y' | e] s1]; [| discriminate].
  destruct (eigenanalysis E y' I_const s1) as [[er | e] s2]; [| discriminate].
  destruct (np_max _) as [m | e]; [| discriminate].
  simpl. intros [= _ <-]. eauto.
Qed.

(** X8.  For a parameter with an entry, [parameter_sensitivity] at zero
    intake and [continuation_1d] with stability tracking report the same
    largest real parts and the same stability flags, value by value, and
    both leave the mapping as it was. *)
Theorem sensitivity_agrees_with_continuation :
  forall (E : Solvers) (param_name : string) (param_range : list fl)
         (include_upregulation : bool) (s : params),
    param_name <> "I" ->
    is_Some (s !! param_name) ->
    exists rs rc,
      parameter_sensitivity E param_name param_range (Fin 0) include_upregulation s
      = (Ok rs, s)
      /\ continuation_1d E param_name param_range include_upregulation true s
         = (Ok rc, s)
      /\ cont_max_eigenvalue rc = Some (sens_max_real_eigenvalue rs)
      /\ cont_stability rc = Some (sens_is_stable rs).
Proof.
  intros E name range incl s Hn [v Hv].
  (* the sensitivity sweep *)
  assert (Hsens : exists rs,
             parameter_sensitivity E name range (Fin 0) incl s = (Ok rs, s)
             /\ sens_max_real_eigenvalue rs
                = map (fun p => fst (sensitivity_entry E name (Fin 0) incl s p)) range
             /\ sens_is_stable rs
                = map (fun p => snd (sensitivity_entry E name (Fin 0) incl s p)) range).
  { unfold parameter_sensitivity.
    rewrite (bind_ok _ _ s v s) by (unfold getitem; now rewrite Hv).
    destruct (sensitivity_loop_spec E name (Fin 0) incl s range 0 ([], []) s
                (same_but_refl name s)) as (s' & Hloop & Hs').
    rewrite (bind_ok _ _ _ _ _ Hloop).
    rewrite (bind_ok _ _ s' tt (<[name := v]> s')) by reflexivity.
    rewrite (same_but_restore name v s s' Hv Hs').
    eexists. split; [reflexivity |]. split; reflexivity. }
  destruct Hsens as (rs & Hrs & Hmax & Hstab).
  (* the continuation sweep *)
  destruct (continuation_1d_spec E name range incl true s)
    as (a & Hrc & _ & L2 & L3 & Hrec).
  pose proof (continuation_1d_restores E name range incl true s
                (or_intror (ex_intro _ v Hv))) as Hstore.
  destruct (continuation_1d E name range incl true s) as [rc' s2].
  cbn [snd] in Hstore. subst s2. injection Hrc as -> _.
  eexists. eexists. split; [exact Hrs |]. split; [reflexivity |].
  cbn [cont_max_eigenvalue cont_stability]. rewrite Hmax, Hstab.
  assert (Hentry : forall i p, range !! i = Some p ->
             max_eigs a !! i = Some (fst (sensitivity_entry E name (Fin 0) incl s p))
             /\ is_stable a !! i = Some (snd (sensitivity_entry E name (Fin 0) incl s p))).
  { intros i p Hi. specialize (Hrec i p Hi).
    unfold recorded_at, sweep_input, sweep_store in Hrec.
    rewrite !bool_decide_eq_false_2 in Hrec by exact Hn.
    unfold sensitivity_entry.
    destruct (fst (pass E (Fin 0) incl true (<[name := p]> s)))
      as [[y so] | e] eqn:Hpass.
    - destruct (pass_tracked _ _ _ _ _ _ Hpass) as (b & m & ->).
      destruct Hrec as [_ Hso]. destruct (Hso b m eq_refl). auto.
    - destruct Hrec as (_ & Hb & Hm). auto. }
  split; f_equal; apply lookup_map_eq; auto; intros i p Hi;
    now destruct (Hentry i p Hi).
Qed.

Lemma sensitivity_agrees_with_continuation_witness :
  exists rs rc,
    parameter_sensitivity (Coarse.solvers true) "k_des" [Fin 1; Fin 2] (Fin 0) true
      (init None)
    = (Ok rs, init None)
    /\ continuation_1d (Coarse.solvers true) "k_des" [Fin 1; Fin 2] true true
         (init None)
       = (Ok rc, init None)
    /\ cont_max_eigenvalue rc = Some (sens_max_real_eigenvalue rs)
    /\ cont_stability rc = Some (sens_is_stable rs).
Proof.
  apply sensitivity_agrees_with_continuation; [discriminate |].
  exists (Fin 0.05). vm_compute. reflexivity.
Defined.

(** *** detect_bifurcations *)

Lemma collect_filter test indices :
  collect test indices = filter (fun i => test i = true) indices.
Proof.
  unfold collect.
  enough (forall out, fold_left (fun out i => if test i then out ++ [i] else out)
                        indices out
                      = out ++ filter (fun i => test i = true) indices)
    as H by apply (H []).
  induction indices as [| i indices IH]; intros out; simpl.
  - now rewrite app_nil_r.
  - rewrite IH, filter_cons. destruct (test i).
    + rewrite decide_True by reflexivity. now rewrite <- app_assoc.
    + rewrite decide_False by discriminate. reflexivity.
Qed.

Lemma filter_nil_all {X} (P : X -> Prop) `{!forall x, Decision (P x)} (l : list X) :
  (forall x, x ∈ l -> ~ P x) -> filter P l = [].
Proof.
  induction l as [| x l IH]; intros Hl; [reflexivity |].
  rewrite filter_cons_False by (apply Hl; left).
  apply IH. intros y Hy. apply Hl. now right.
Qed.

Lemma item_lookup (a : list fl) i x : a !! i = Some x -> item a i = x.
Proof. unfold item. now intros ->. Qed.

Lemma fl_gtb_Fin a b :
  fl_gtb a b = true -> exists x y, a = Fin x /\ b = Fin y /\ (y < x)%Q.
Proof.
  destruct a as [x |], b as [y |]; try discriminate. simpl.
  intros H. apply Qgtb_spec in H. now exists x, y.
Qed.

Lemma saddle_node_indices_spec r i :
  i ∈ saddle_node_indices (detect_bifurcations r)
  <-> (1 <= i)%nat
      /\ (i + 1 < length (cont_steady_states r))%nat
      /\ is_fold (map st_D (cont_steady_states r)) i = true.
Proof.
  unfold detect_bifurcations. cbn [saddle_node_indices].
  rewrite collect_filter, list_elem_of_filter, elem_of_seq, length_map.
  split.
  - intros (Hf & H1 & H2). repeat split; auto; lia.
  - intros (H1 & H2 & Hf). repeat split; auto; lia.
Qed.

(** X9.  Every index [detect_bifurcations] reports as a fold is an
    interior index of the curve whose dopamine value and both
    neighbours are numbers, and the value is strictly above both
    neighbours or strictly below both: nothing is reported at the ends
    of the sweep, at an invalid entry or next to one. *)
Theorem detected_folds_are_interior_extrema :
  forall (r : Continuation) (i : nat),
    i ∈ saddle_node_indices (detect_bifurcations r) ->
    (1 <= i)%nat
    /\ (i + 1 < length (cont_steady_states r))%nat
    /\ exists prev cur next,
         map st_D (cont_steady_states r) !! (i - 1)%nat = Some (Fin prev)
         /\ map st_D (cont_steady_states r) !! i = Some (Fin cur)
         /\ map st_D (cont_steady_states r) !! (i + 1)%nat = Some (Fin next)
         /\ ((prev < cur /\ next < cur) \/ (cur < prev /\ cur < next))%Q.
Proof.
  intros r i Hi. apply saddle_node_indices_spec in Hi as (H1 & H2 & Hf).
  split; [exact H1 |]. split; [exact H2 |].
  set (D := map st_D (cont_steady_states r)) in *.
  assert (Hlen : length D = length (cont_steady_states r))
    by (subst D; apply length_map).
  destruct (lookup_lt_is_Some_2 D (i - 1)) as [a Ha]; [lia |].
  destruct (lookup_lt_is_Some_2 D i) as [b Hb]; [lia |].
  destruct (lookup_lt_is_Some_2 D (i + 1)) as [c Hc]; [lia |].
  unfold is_fold in Hf.
  rewrite (item_lookup _ _ _ Ha), (item_lookup _ _ _ Hb), (item_lookup _ _ _ Hc) in Hf.
  destruct (isnan b) eqn:Hnan; [discriminate |].
  apply orb_true_iff in Hf as [Hmax | Hmin].
  - apply andb_true_iff in Hmax as [G1 G2].
    destruct (fl_gtb_Fin _ _ G1) as (x & p & -> & -> & Hp).
    destruct (fl_gtb_Fin _ _ G2) as (x' & n & [= <-] & -> & Hn).
    exists p, x, n. repeat split; auto.
  - apply andb_true_iff in Hmin as [G1 G2].
    destruct (fl_ltb_Fin _ _ G1) as (x & p & -> & -> & Hp).
    destruct (fl_ltb_Fin _ _ G2) as (x' & n & [= <-] & -> & Hn).
    exists p, x, n. repeat split; auto.
Qed.

Lemma detected_folds_are_interior_extrema_witness :
  (1 + 1 < 3)%nat
  /\ exists prev cur next : Q,
       [Fin 0.5; Fin 0.7; Fin 0.6] !! 0%nat = Some (Fin prev)
       /\ [Fin 0.5; Fin 0.7; Fin 0.6] !! 1%nat = Some (Fin cur)
       /\ [Fin 0.5; Fin 0.7; Fin 0.6] !! 2%nat = Some (Fin next)
       /\ ((prev < cur /\ next < cur) \/ (cur < prev /\ cur < next))%Q.
Proof.
  apply (detected_folds_are_interior_extrema
           {| cont_param_values := [Fin 0; Fin 1; Fin 2];
              cont_steady_states :=
                [State (Fin 0) (Fin 0) (Fin 0) (Fin 1) (Fin 0.5);
                 State (Fin 0) (Fin 0) (Fin 0) (Fin 1) (Fin 0.7);
                 State (Fin 0) (Fin 0) (Fin 0) (Fin 1) (Fin 0.6)];
              cont_stability := None;
              cont_max_eigenvalue := None |} 1%nat).
  vm_compute. left.
Defined.

(** X10.  A dopamine curve that never strictly decreases from one entry
    to the next, or never strictly increases (NaN entries compare as
    neither), has no fold. *)
Theorem monotone_curve_has_no_fold :
  forall (r : Continuation),
    let D_curve := map st_D (cont_steady_states r) in
    (forall i, fl_gtb (item D_curve i) (item D_curve (i + 1)) = false)
    \/ (forall i, fl_ltb (item D_curve i) (item D_curve (i + 1)) = false) ->
    saddle_node_indices (detect_bifurcations r) = [].
Proof.
  intros r D_curve Hmono.
  unfold detect_bifurcations. cbn [saddle_node_indices]. fold D_curve.
  rewrite collect_filter. apply filter_nil_all.
  intros i Hi Hf. apply elem_of_seq in Hi as [H1 _].
  unfold is_fold, fl_ltb in Hf.
  destruct (isnan (item D_curve i)); [discriminate |].
  unfold fl_ltb in Hmono.
  destruct Hmono as [Hm | Hm].
  - pose proof (Hm (i - 1)%nat) as Hprev. pose proof (Hm i) as Hnext.
    replace (i - 1 + 1)%nat with i in Hprev by lia.
    rewrite Hprev, Hnext in Hf. rewrite andb_false_r in Hf. discriminate.
  - pose proof (Hm (i - 1)%nat) as Hprev. pose proof (Hm i) as Hnext.
    replace (i - 1 + 1)%nat with i in Hprev by lia.
    rewrite Hprev, Hnext in Hf. rewrite andb_false_r in Hf. discriminate.
Qed.

Lemma monotone_curve_has_no_fold_witness :
  saddle_node_indices
    (detect_bifurcations
       {| cont_param_values := [Fin 0; Fin 1; Fin 2];
          cont_steady_states :=
            [State (Fin 0) (Fin 0) (Fin 0) (Fin 1) (Fin 0.5);
             State NaN NaN NaN NaN NaN;
             State (Fin 0) (Fin 0) (Fin 0) (Fin 1) (Fin 0.6)];
          cont_stability := None;
          cont_max_eigenvalue := None |})
  = [].
Proof.
  apply monotone_curve_has_no_fold. left.
  intros [| [| [| i]]]; reflexivity.
Defined.

Lemma adjacent_equal_constant (st : list bool) :
  (forall i, (1 <= i < length st)%nat -> st !! i = st !! (i - 1)%nat) ->
  forall i b, st !! i = Some b -> st !! 0%nat = Some b.
Proof.
  intros Hadj i. induction i as [| i IH]; intros b Hi; [exact Hi |].
  apply IH. rewrite <- Hi.
  replace i with (S i - 1)%nat at 1 by lia. symmetry. apply Hadj.
  apply lookup_lt_Some in Hi. lia.
Qed.

(** X11.  [detect_bifurcations] reports no stability change exactly
    when all stability flags of the sweep are equal; a result without
    stability tracking has none. *)
Theorem stability_changes_none_iff_constant :
  forall (r : Continuation),
    stability_change_indices (detect_bifurcations r) = []
    <-> match cont_stability r with
        | Some stability =>
            forall b b', b ∈ stability -> b' ∈ stability -> b = b'
        | None => True
        end.
Proof.
  intros r. unfold detect_bifurcations. cbn [stability_change_indices].
  destruct (cont_stability r) as [st |]; [| tauto].
  rewrite collect_filter. split.
  - intros Hnil.
    assert (Hadj : forall i, (1 <= i < length st)%nat -> st !! i = st !! (i - 1)%nat).
    { intros i Hi.
      destruct (lookup_lt_is_Some_2 st i) as [x Hx]; [lia |].
      destruct (lookup_lt_is_Some_2 st (i - 1)) as [y Hy]; [lia |].
      rewrite Hx, Hy. f_equal.
      destruct (Bool.eqb x y) eqn:Hxy; [now apply Bool.eqb_prop |].
      exfalso. eapply (filter_nil_not_elem_of _ _ i Hnil).
      - rewrite Hx, Hy. simpl. now rewrite Hxy.
      - apply elem_of_seq. lia. }
    intros b b' Hb Hb'.
    apply list_elem_of_lookup in Hb as [i Hi], Hb' as [j Hj].
    apply (adjacent_equal_constant st Hadj) in Hi, Hj. congruence.
  - intros Hconst. apply filter_nil_all. intros i Hi Hne.
    apply elem_of_seq in Hi.
    destruct (lookup_lt_is_Some_2 st i) as [x Hx]; [lia |].
    destruct (lookup_lt_is_Some_2 st (i - 1)) as [y Hy]; [lia |].
    rewrite Hx, Hy in Hne. simpl in Hne.
    rewrite (Hconst x y) in Hne.
    + rewrite Bool.eqb_reflx in Hne. discriminate.
    + eapply list_elem_of_lookup_2; eauto.
    + eapply list_elem_of_lookup_2; eauto.
Qed.

(** X12.  A sweep in which every pass failed has neither folds nor
    stability changes: all its dopamine values are NaN and all its
    stability flags are [False]. *)
Theorem failed_sweep_has_no_bifurcations :
  forall (E : Solvers) (param_name : string) (param_range : list fl)
         (include_upregulation : bool) (s : params),
    (forall p, p ∈ param_range ->
       exists e, fst (pass E (sweep_input param_name p) include_upregulation true
                        (sweep_store param_name p s))
                 = Raise e) ->
    exists r s',
      continuation_1d E param_name param_range include_upregulation true s
      = (Ok r, s')
      /\ detect_bifurcations r
         = {| saddle_node_indices := []; stability_change_indices := [] |}.
Proof.
  intros E name range incl s Hfail.
  destruct (continuation_1d_spec E name range incl true s)
    as (a & Hrun & L1 & L2 & _ & Hrec).
  eexists. eexists. split; [exact Hrun |].
  assert (Hnan : forall i, item (map st_D (steady_states a)) i = NaN).
  { intros i. unfold item. rewrite list_lookup_fmap.
    destruct (range !! i) as [p |] eqn:Hp.
    - specialize (Hrec i p Hp). unfold recorded_at in Hrec.
      destruct (Hfail p) as [e He]; [eapply list_elem_of_lookup_2; eauto |].
      rewrite He in Hrec. destruct Hrec as (-> & _). reflexivity.
    - apply lookup_ge_None in Hp.
      rewrite (proj2 (lookup_ge_None _ _)) by lia. reflexivity. }
  assert (Hfalse : forall i, default false (is_stable a !! i) = false).
  { intros i. destruct (range !! i) as [p |] eqn:Hp.
    - specialize (Hrec i p Hp). unfold recorded_at in Hrec.
      destruct (Hfail p) as [e He]; [eapply list_elem_of_lookup_2; eauto |].
      rewrite He in Hrec. destruct Hrec as (_ & -> & _). reflexivity.
    - apply lookup_ge_None in Hp.
      rewrite (proj2 (lookup_ge_None _ _)) by lia. reflexivity. }
  unfold detect_bifurcations. cbn [cont_steady_states cont_stability].
  f_equal; rewrite collect_filter; apply filter_nil_all; intros i _.
  - unfold is_fold. rewrite Hnan. discriminate.
  - rewrite !Hfalse. discriminate.
Qed.

Lemma failed_sweep_has_no_bifurcations_witness :
  exists r s',
    continuation_1d (Coarse.solvers false) "I" [Fin 0; Fin 1; Fin 2] true true
      (init None)
    = (Ok r, s')
    /\ detect_bifurcations r
       = {| saddle_node_indices := []; stability_change_indices := [] |}.
Proof.
  apply failed_sweep_has_no_bifurcations.
  intros p Hp. apply list_elem_of_In in Hp. simpl in Hp.
  destruct Hp as [<- | [<- | [<- | []]]]; eexists; vm_compute; reflexivity.
Defined.

(** *** intake_regime_classifier *)

Lemma fill_step {X} (l : list X) (i k : nat) (x : X) (m : list X) :
  (i < length l)%nat ->
  take (S i) (<[i := x]> l) ++ m ++ drop (S i + k) (<[i := x]> l)
  = take i l ++ (x :: m) ++ drop (i + S k) l.
Proof.
  intros Hi.
  rewrite (take_S_r _ _ x) by (now apply list_lookup_insert_eq).
  rewrite take_insert_ge by lia. rewrite drop_insert_lt by lia.
  rewrite <- app_assoc. simpl.
  replace (S (i + k)) with (i + S k)%nat by lia. reflexivity.
Qed.

Section RegimeProofs.
Variable E : Solvers.

(** One pass of the loop, [try] and [except] together. *)
Lemma regime_pass_spec R_T_0 i I a s :
  try_except (regime_try E R_T_0 i I a) (fun _ => ret (regime_except i a)) s
  = (Ok {| D_steady := <[i := cl_D (regime_entry E s R_T_0 I)]> (D_steady a);
           R_T_steady := <[i := cl_R_T (regime_entry E s R_T_0 I)]> (R_T_steady a);
           regimes := regimes a ++ [cl_regime (regime_entry E s R_T_0 I)] |}, s).
Proof.
  unfold try_except, regime_try, regime_entry, bind, getitem, ret.
  pose proof (preserves_steady_state E I true s) as Hp.
  destruct (steady_state E I true s) as [[y | e] s1]; simpl in Hp; subst s1.
  - simpl. destruct (s !! "D_0"); reflexivity.
  - simpl. destruct (s !! "D_0"); reflexivity.
Qed.

Lemma regime_loop_spec R_T_0 s range :
  forall i a,
    (i + length range <= length (D_steady a))%nat ->
    (i + length range <= length (R_T_steady a))%nat ->
    for_enumerate i range
      (fun i I a =>
         try_except (regime_try E R_T_0 i I a) (fun _ => ret (regime_except i a)))
      a s
    = (Ok {| D_steady := take i (D_steady a)
                         ++ map (fun I => cl_D (regime_entry E s R_T_0 I)) range
                         ++ drop (i + length range) (D_steady a);
             R_T_steady := take i (R_T_steady a)
                           ++ map (fun I => cl_R_T (regime_entry E s R_T_0 I)) range
                           ++ drop (i + length range) (R_T_steady a);
             regimes := regimes a
                        ++ map (fun I => cl_regime (regime_entry E s R_T_0 I)) range |},
       s).
Proof.
  induction range as [| I range IH]; intros i a H1 H2; simpl in *.
  - rewrite Nat.add_0_r, !take_drop, app_nil_r. now destruct a.
  - rewrite (bind_ok _ _ _ _ _ (regime_pass_spec R_T_0 i I a s)).
    rewrite IH by (cbn [D_steady R_T_steady]; rewrite length_insert; lia).
    cbn [D_steady R_T_steady regimes].
    rewrite !fill_step by lia. now rewrite <- app_assoc.
Qed.

End RegimeProofs.

(** X13.  [intake_regime_classifier] needs [params['R_T_0']] and raises
    [KeyError] without it, before any steady state is computed.
    Otherwise it returns, with the mapping unchanged, three sequences
    aligned with the intake values: each intake is classified on its
    own, a failed steady state gives NaN, NaN and ["Undefined"], and the
    upregulation is the receptor level minus [R_T_0]. *)
Theorem intake_regime_classifier_spec :
  forall (E : Solvers) (I_values : list fl) (s : params),
    intake_regime_classifier E I_values s
    = match s !! "R_T_0" with
      | None => (Raise (KeyError "R_T_0"), s)
      | Some R_T_0 =>
          (Ok {| reg_intake_rates := I_values;
                 reg_dopamine_levels :=
                   map (fun I => cl_D (regime_entry E s R_T_0 I)) I_values;
                 reg_receptor_upregulation :=
                   map (fun I => (cl_R_T (regime_entry E s R_T_0 I) - R_T_0)%num)
                       I_values;
                 reg_regime :=
                   map (fun I => cl_regime (regime_entry E s R_T_0 I)) I_values |},
           s)
      end.
Proof.
  intros E I_values s. unfold intake_regime_classifier.
  destruct (s !! "R_T_0") as [R |] eqn:HR.
  - rewrite (bind_ok _ _ s R s) by (unfold getitem; now rewrite HR).
    pose proof (regime_loop_spec E R s I_values 0
                  {| D_steady := replicate (length I_values) (Fin 0);
                     R_T_steady := replicate (length I_values) (Fin 0);
                     regimes := [] |}) as Hloop.
    cbn [D_steady R_T_steady regimes] in Hloop.
    rewrite length_replicate in Hloop.
    rewrite (bind_ok _ _ _ _ _ (Hloop (le_n _) (le_n _))).
    unfold ret. rewrite !take_0. simpl.
    rewrite !drop_ge by (rewrite length_replicate; lia).
    rewrite !app_nil_r. now rewrite map_map.
  - apply bind_raise. unfold getitem. now rewrite HR.
Qed.

Lemma Qeq_bool_pos_false (x : Q) : (0 < x)%Q -> Qeq_bool x 0 = false.
Proof.
  intros Hx. destruct (Qeq_bool x 0) eqn:Heq; [| reflexivity].
  apply Qeq_bool_eq in Heq. rewrite Heq in Hx. now apply Qlt_irrefl in Hx.
Qed.

(** The test [(x - x0) / x0 < c] of the classification, for a positive
    baseline [x0]. *)
Lemma increase_ltb (x x0 c : Q) :
  (0 < x0)%Q ->
  xfl_ltb (np_divide (Fin x - Fin x0)%num (Fin x0)) c = true
  <-> (x < x0 + c * x0)%Q.
Proof.
  intros Hx0. simpl. rewrite (Qeq_bool_pos_false x0 Hx0). simpl.
  rewrite Qgtb_spec, !Qred_correct.
  split.
  - intros Hlt.
    apply (Qmult_lt_compat_r _ _ x0) in Hlt; [| exact Hx0].
    assert (Heq : ((x - x0) / x0 * x0 == x - x0)%Q)
      by (field; intros H0; rewrite H0 in Hx0; now apply Qlt_irrefl in Hx0).
    rewrite Heq in Hlt. lra.
  - intros Hlt. apply Qlt_shift_div_r; [exact Hx0 | lra].
Qed.

(** X14.  For positive baselines [D_0] and [R_T_0] the classification
    never gets milder when the steady-state dopamine and receptor
    levels rise, and levels at or below the baselines are
    ["Casual"]. *)
Theorem classify_regime_monotone :
  forall (D1 D2 RT1 RT2 D_0 R_T_0 : Q),
    (0 < D_0)%Q -> (0 < R_T_0)%Q ->
    (D1 <= D2)%Q -> (RT1 <= RT2)%Q ->
    (severity (classify_regime (Fin D1) (Fin RT1) (Fin D_0) (Fin R_T_0))
     <= severity (classify_regime (Fin D2) (Fin RT2) (Fin D_0) (Fin R_T_0)))%nat
    /\ ((D1 <= D_0)%Q -> (RT1 <= R_T_0)%Q ->
        classify_regime (Fin D1) (Fin RT1) (Fin D_0) (Fin R_T_0) = "Casual").
Proof.
  intros D1 D2 RT1 RT2 D_0 R_T_0 HD0 HR0 HD HR.
  unfold classify_regime.
  pose proof (increase_ltb D1 D_0 0.2 HD0) as A1.
  pose proof (increase_ltb D2 D_0 0.2 HD0) as A2.
  pose proof (increase_ltb RT1 R_T_0 0.05 HR0) as B1.
  pose proof (increase_ltb RT2 R_T_0 0.05 HR0) as B2.
  pose proof (increase_ltb D1 D_0 0.5 HD0) as C1.
  pose proof (increase_ltb D2 D_0 0.5 HD0) as C2.
  pose proof (increase_ltb RT1 R_T_0 0.15 HR0) as F1.
  pose proof (increase_ltb RT2 R_T_0 0.15 HR0) as F2.
  set (a1 := xfl_ltb (np_divide (Fin D1 - Fin D_0)%num (Fin D_0)) 0.2) in *.
  set (a2 := xfl_ltb (np_divide (Fin D2 - Fin D_0)%num (Fin D_0)) 0.2) in *.
  set (b1 := xfl_ltb (np_divide (Fin RT1 - Fin R_T_0)%num (Fin R_T_0)) 0.05) in *.
  set (b2 := xfl_ltb (np_divide (Fin RT2 - Fin R_T_0)%num (Fin R_T_0)) 0.05) in *.
  set (c1 := xfl_ltb (np_divide (Fin D1 - Fin D_0)%num (Fin D_0)) 0.5) in *.
  set (c2 := xfl_ltb (np_divide (Fin D2 - Fin D_0)%num (Fin D_0)) 0.5) in *.
  set (f1 := xfl_ltb (np_divide (Fin RT1 - Fin R_T_0)%num (Fin R_T_0)) 0.15) in *.
  set (f2 := xfl_ltb (np_divide (Fin RT2 - Fin R_T_0)%num (Fin R_T_0)) 0.15) in *.
  assert (Ha : a2 = true -> a1 = true) by (intros H; apply A1; apply A2 in H; lra).
  assert (Hb : b2 = true -> b1 = true) by (intros H; apply B1; apply B2 in H; lra).
  assert (Hc : c2 = true -> c1 = true) by (intros H; apply C1; apply C2 in H; lra).
  assert (Hf : f2 = true -> f1 = true) by (intros H; apply F1; apply F2 in H; lra).
  split.
  - clearbody a1 a2 b1 b2 c1 c2 f1 f2.
    destruct a2; [rewrite (Ha eq_refl) |];
      (destruct b2; [rewrite (Hb eq_refl) |]);
      (destruct c2; [rewrite (Hc eq_refl) |]);
      (destruct f2; [rewrite (Hf eq_refl) |]);
      destruct a1, b1, c1, f1; vm_compute; lia.
  - intros Hd Hr.
    assert (a1 = true) as -> by (apply A1; lra).
    assert (b1 = true) as -> by (apply B1; lra).
    reflexivity.
Qed.

Lemma classify_regime_monotone_witness :
  (severity (classify_regime (Fin 0.55) (Fin 1.0) (Fin 0.5) (Fin 1.0))
   <= severity (classify_regime (Fin 0.7) (Fin 1.1) (Fin 0.5) (Fin 1.0)))%nat
  /\ classify_regime (Fin 0.5) (Fin 1.0) (Fin 0.5) (Fin 1.0) = "Casual".
Proof.
  split.
  - apply (classify_regime_monotone 0.55 0.7 1.0 1.1 0.5 1.0); reflexivity || discriminate.
  - apply (classify_regime_monotone 0.5 0.5 1.0 1.0 0.5 1.0); reflexivity || discriminate.
Defined.

(** *** classify_fixed_point and timescale_separation *)

(** The derived fields of the dict returned by [eigenanalysis]. *)
Lemma eigenanalysis_fields E y I_const s a s' :
  eigenanalysis E y I_const s = (Ok a, s') ->
  ea_real_parts a = map fst (ea_eigenvalues a)
  /\ ea_imag_parts a = map snd (ea_eigenvalues a)
  /\ ea_is_stable a = forallb (fun x => fl_ltb x (Fin 0)) (ea_real_parts a)
  /\ ea_timescales a = map (fun x => fl_div (Fin 1) (fl_abs x)) (ea_real_parts a).
Proof.
  unfold eigenanalysis, bind, lift, ret.
  destruct (jacobian y I_const s) as [[J | e] s1]; [| discriminate].
  destruct (eig E J) as [r | e]; [| discriminate].
  intros [= <- _]. simpl. auto.
Qed.

(** X15.  [classify_fixed_point] agrees with the stability flag of
    [eigenanalysis]: it answers with one of the two "Stable" labels
    exactly when [is_stable] holds.  An eigenvalue whose real part is
    zero or NaN makes the answer "Saddle (mixed stability)". *)
Theorem classify_fixed_point_consistent :
  forall (E : Solvers) (y : state fl) (I_const : fl) (s : params)
         (a : EigenAnalysis),
    eigenanalysis E y I_const s = (Ok a, s) ->
    exists label,
      classify_fixed_point E y I_const s = (Ok label, s)
      /\ (ea_is_stable a = true
          <-> label = "Stable focus (with oscillatory modes)"
              \/ label = "Stable node")
      /\ ((exists x, x ∈ ea_real_parts a
                     /\ fl_ltb x (Fin 0) = false /\ fl_gtb x (Fin 0) = false) ->
          label = "Saddle (mixed stability)").
Proof.
  intros E y I_const s a Heig.
  destruct (eigenanalysis_fields E y I_const s a s Heig) as (_ & _ & Hst & _).
  unfold classify_fixed_point. rewrite (bind_ok _ _ _ _ _ Heig).
  rewrite Hst.
  assert (Hmixed : (exists x, x ∈ ea_real_parts a
                              /\ fl_ltb x (Fin 0) = false
                              /\ fl_gtb x (Fin 0) = false) ->
                   forallb (fun x => fl_ltb x (Fin 0)) (ea_real_parts a) = false
                   /\ forallb (fun x => fl_gtb x (Fin 0)) (ea_real_parts a) = false).
  { intros (x & Hx & Hlt & Hgt). apply list_elem_of_In in Hx.
    split; apply not_true_is_false; intros Hall;
      rewrite forallb_forall in Hall; specialize (Hall x Hx); congruence. }
  destruct (forallb (fun x => fl_ltb x (Fin 0)) (ea_real_parts a)).
  - destruct (existsb fl_neb0 (ea_imag_parts a)); eexists;
      (split; [reflexivity |]); (split; [split; auto |]);
      intros Hx; destruct (Hmixed Hx); discriminate.
  - destruct (forallb (fun x => fl_gtb x (Fin 0)) (ea_real_parts a)); eexists;
      (split; [reflexivity |]);
      (split; [split; [discriminate | intros [? | ?]; discriminate] |]).
    + intros Hx. destruct (Hmixed Hx); discriminate.
    + reflexivity.
Qed.

Lemma classify_fixed_point_consistent_witness :
  classify_fixed_point (Coarse.solvers true) default_baseline (Fin 0) (init None)
  = (Ok "Saddle (mixed stability)", init None).
Proof.
  destruct (eigenanalysis (Coarse.solvers true) default_baseline (Fin 0) (init None))
    as [[a | e] s'] eqn:Heig.
  - assert (s' = init None) as ->.
    { pose proof (preserves_eigenanalysis (Coarse.solvers true) default_baseline
                    (Fin 0) (init None)) as Hp.
      rewrite Heig in Hp. exact Hp. }
    destruct (classify_fixed_point_consistent _ _ _ _ _ Heig)
      as (label & Hrun & _ & Hsaddle).
    rewrite Hrun, Hsaddle; [reflexivity |].
    exists (Fin 0). apply (f_equal fst) in Heig. vm_compute in Heig.
    injection Heig as <-. split; [| split; reflexivity].
    apply list_elem_of_In. simpl. auto.
  - apply (f_equal fst) in Heig. vm_compute in Heig. discriminate.
Defined.

Lemma sort_leb_total a b : sort_leb a b = false -> sort_leb b a = true.
Proof.
  destruct a as [x |], b as [y |]; simpl; try discriminate; try reflexivity.
  intros H. apply Qle_bool_iff.
  destruct (Qlt_le_dec x y) as [Hlt | Hle]; [| exact Hle].
  apply Qlt_le_weak, Qle_bool_iff in Hlt. congruence.
Qed.

Lemma fl_le_trans a b c : fl_le a b -> fl_le b c -> fl_le a c.
Proof.
  unfold fl_le. destruct a as [x |], b as [y |], c as [z |]; simpl;
    try discriminate; try reflexivity.
  rewrite !Qle_bool_iff. apply Qle_trans.
Qed.

Lemma sort_insert_perm x l : sort_insert x l ≡ₚ x :: l.
Proof.
  induction l as [| y l IH]; simpl; [reflexivity |].
  destruct (sort_leb x y); [reflexivity |].
  rewrite IH. apply Permutation_swap.
Qed.

Lemma np_sort_perm l : np_sort l ≡ₚ l.
Proof.
  induction l as [| x l IH]; simpl; [reflexivity |].
  now rewrite sort_insert_perm, IH.
Qed.

Lemma sort_insert_sorted x l :
  StronglySorted fl_le l -> StronglySorted fl_le (sort_insert x l).
Proof.
  induction 1 as [| y l Hs IH Hy]; simpl.
  - repeat constructor.
  - destruct (sort_leb x y) eqn:Hxy.
    + constructor; [now constructor |]. constructor; [exact Hxy |].
      eapply Forall_impl; [exact Hy |]. intros z Hz.
      now apply (fl_le_trans x y z).
    + constructor; [exact IH |].
      rewrite sort_insert_perm. constructor; [| exact Hy].
      now apply sort_leb_total.
Qed.

Lemma np_sort_sorted l : StronglySorted fl_le (np_sort l).
Proof.
  induction l as [| x l IH]; simpl; [constructor |].
  now apply sort_insert_sorted.
Qed.

Lemma sorted_last_max l z :
  StronglySorted fl_le l -> last l = Some z -> Forall (fun x => fl_le x z) l.
Proof.
  induction 1 as [| y l Hs IH Hy]; intros Hlast; [constructor |].
  destruct l as [| y' l'].
  - injection Hlast as <-. repeat constructor.
    unfold fl_le. destruct y; simpl; [apply Qle_bool_iff, Qle_refl | reflexivity].
  - rewrite last_cons_cons in Hlast. constructor; [| now apply IH].
    rewrite Forall_forall in Hy. apply Hy.
    now apply last_Some_elem_of.
Qed.

(** A timescale that is not NaN is a positive number. *)
Lemma timescale_positive x :
  isnan (fl_div (Fin 1) (fl_abs x)) = false ->
  exists q, fl_div (Fin 1) (fl_abs x) = Fin q /\ (0 < q)%Q.
Proof.
  destruct x as [rx |]; simpl; [| discriminate].
  destruct (Qeq_bool (Qred (Qabs rx)) 0) eqn:Hz; [discriminate |]. intros _.
  eexists. split; [reflexivity |].
  rewrite !Qred_correct.
  assert (Hne : ~ (Qabs rx == 0)%Q).
  { intros H0. apply Qeq_bool_neq in Hz. apply Hz. now rewrite Qred_correct. }
  pose proof (Qabs_nonneg rx) as Hnn.
  assert (Hpos : (0 < Qabs rx)%Q).
  { destruct (Qlt_le_dec 0 (Qabs rx)) as [? | Hle]; [assumption |].
    exfalso. apply Hne. now apply Qle_antisym. }
  unfold Qdiv. rewrite Qmult_1_l. now apply Qinv_lt_0_compat.
Qed.

(** X16.  Once [eigenanalysis] has returned, [timescale_separation]
    returns the timescales that are not NaN in ascending order.  When
    there is none (every real part is zero or NaN) it returns NaN
    throughout; otherwise the fast timescale is the smallest and the
    slow one the largest, both are positive, and the separation ratio is
    their quotient, at least 1; the [np.inf] branch is never taken
    (exact arithmetic, as everywhere in this model). *)
Theorem timescale_separation_ordered :
  forall (E : Solvers) (y : state fl) (I_const : fl) (s : params)
         (a : EigenAnalysis),
    eigenanalysis E y I_const s = (Ok a, s) ->
    exists r,
      timescale_separation E y I_const s = (Ok r, s)
      /\ all_timescales r ≡ₚ filter (fun x => isnan x = false) (ea_timescales a)
      /\ StronglySorted fl_le (all_timescales r)
      /\ match all_timescales r with
         | [] =>
             fast_timescale r = NaN /\ slow_timescale r = NaN
             /\ separation_ratio r = XNaN
         | _ :: _ =>
             exists fast slow ratio,
               fast_timescale r = Fin fast /\ slow_timescale r = Fin slow
               /\ separation_ratio r = XFin ratio
               /\ (0 < fast)%Q /\ (ratio == slow / fast)%Q /\ (1 <= ratio)%Q
               /\ forall x, x ∈ all_timescales r ->
                    exists q, x = Fin q /\ (fast <= q <= slow)%Q
         end.
Proof.
  intros E y I_const s a Heig.
  destruct (eigenanalysis_fields E y I_const s a s Heig) as (_ & _ & _ & Hts).
  unfold timescale_separation. rewrite (bind_ok _ _ _ _ _ Heig).
  set (valid := filter (fun x => isnan x = false) (ea_timescales a)).
  pose proof (np_sort_perm valid) as Hperm.
  pose proof (np_sort_sorted valid) as Hsorted.
  assert (Hpos : forall x, x ∈ np_sort valid -> exists q, x = Fin q /\ (0 < q)%Q).
  { intros x Hx. rewrite Hperm in Hx. subst valid.
    apply list_elem_of_filter in Hx as [Hnan Hx].
    rewrite Hts in Hx. apply list_elem_of_fmap in Hx as (re & -> & _).
    now apply timescale_positive. }
  destruct (np_sort valid) as [| fast rest] eqn:Hsort.
  - eexists. split; [reflexivity |]. cbn [all_timescales].
    split; [exact Hperm |]. split; [constructor |]. auto.
  - destruct (last (fast :: rest)) as [slow |] eqn:Hlast;
      [| apply last_None in Hlast; discriminate].
    destruct (Hpos fast) as (qf & -> & Hqf); [left |].
    destruct (Hpos slow) as (qs & -> & Hqs); [now apply last_Some_elem_of |].
    pose proof (sorted_last_max _ _ Hsorted Hlast) as Hmax.
    apply StronglySorted_inv in Hsorted as [Hsorted' Hmin].
    assert (Hfs : (qf <= qs)%Q).
    { rewrite Forall_forall in Hmax.
      specialize (Hmax (Fin qf) (list_elem_of_here _ _)).
      unfold fl_le in Hmax. simpl in Hmax. now apply Qle_bool_iff in Hmax. }
    eexists. split; [reflexivity |].
    cbn [all_timescales fast_timescale slow_timescale separation_ratio].
    split; [exact Hperm |]. split; [now constructor |].
    exists qf, qs, (Qred (qs / qf)).
    split; [reflexivity |]. split; [reflexivity |]. split.
    { simpl. rewrite (proj2 (Qgtb_spec qf 0) Hqf).
      now rewrite (Qeq_bool_pos_false qf Hqf). }
    split; [exact Hqf |]. split; [apply Qred_correct |]. split.
    { rewrite Qred_correct. apply Qle_shift_div_l; [exact Hqf |]. lra. }
    intros x Hx. destruct (Hpos x Hx) as (q & -> & Hq). exists q.
    split; [reflexivity |]. split.
    + apply elem_of_cons in Hx as [[= ->] | Hx]; [apply Qle_refl |].
      rewrite Forall_forall in Hmin. specialize (Hmin _ Hx).
      unfold fl_le in Hmin. simpl in Hmin. now apply Qle_bool_iff in Hmin.
    + rewrite Forall_forall in Hmax. specialize (Hmax _ Hx).
      unfold fl_le in Hmax. simpl in Hmax. now apply Qle_bool_iff in Hmax.
Qed.

Lemma timescale_separation_ordered_witness :
  exists r,
    timescale_separation (Coarse.solvers true) default_baseline (Fin 0) (init None)
    = (Ok r, init None)
    /\ fast_timescale r = Fin 2
    /\ slow_timescale r = Fin 100
    /\ separation_ratio r = XFin 50.
Proof.
  destruct (eigenanalysis (Coarse.solvers true) default_baseline (Fin 0) (init None))
    as [[a | e] s'] eqn:Heig.
  - assert (s' = init None) as ->.
    { pose proof (preserves_eigenanalysis (Coarse.solvers true) default_baseline
                    (Fin 0) (init None)) as Hp.
      rewrite Heig in Hp. exact Hp. }
    destruct (timescale_separation_ordered _ _ _ _ _ Heig) as (r & Hrun & _).
    exists r. split; [exact Hrun |].
    apply (f_equal fst) in Hrun. vm_compute in Hrun. injection Hrun as <-.
    repeat split; reflexivity.
  - apply (f_equal fst) in Heig. vm_compute in Heig. discriminate.
Defined.

(** *** The input functions *)

Lemma Qgeb_spec x y : Qgeb x y = true <-> (y <= x)%Q.
Proof.
  unfold Qgeb. rewrite Qle_alt.
  destruct (x ?= y)%Q eqn:Hc; split; intros H; try congruence.
  - intros Hgt. apply Qeq_alt in Hc. rewrite Hc in Hgt.
    pose proof (Qle_refl y) as Hr. apply Qle_alt in Hr. contradiction.
  - exfalso. apply H. apply Qgt_alt. now apply Qlt_alt.
  - intros Hgt'. apply Qgt_alt in Hc. apply Qgt_alt in Hgt'. lra.
Qed.

(** The window test of the input functions on numbers. *)
Lemma window_spec (t_start duration t : Q) :
  fl_leb (Fin t_start) (Fin t) && fl_ltb (Fin t) (Fin t_start + Fin duration)%num = true
  <-> (t_start <= t /\ t < t_start + duration)%Q.
Proof.
  unfold fl_leb, fl_ltb. simpl.
  rewrite andb_true_iff, Qgeb_spec, Qgtb_spec, Qred_correct. tauto.
Qed.

(** X17.  A bolus with a duration that is not positive delivers nothing,
    at any time (NaN included). *)
Theorem bolus_input_empty_window :
  forall (amplitude : fl) (t_start duration : Q) (t : fl),
    (duration <= 0)%Q ->
    bolus_input amplitude (Fin t_start) (Fin duration) t = Fin 0.
Proof.
  intros amplitude t_start duration t Hd. unfold bolus_input.
  destruct t as [q |]; [| reflexivity].
  destruct (_ && _) eqn:Hw; [| reflexivity].
  apply window_spec in Hw. lra.
Qed.

Lemma bolus_input_empty_window_witness :
  bolus_input (Fin 5) (Fin 10) (Fin 0) (Fin 10) = Fin 0.
Proof.
  apply bolus_input_empty_window. discriminate.
Defined.

Lemma dose_start_nonneg (i : nat) (interval : Q) :
  (0 <= interval)%Q -> (0 <= Qred (inject_Z (Z.of_nat i) * interval))%Q.
Proof.
  intros Hi. rewrite Qred_correct. apply Qmult_le_0_compat; [| exact Hi].
  change 0%Q with (inject_Z 0). rewrite <- Zle_Qle. lia.
Qed.

Lemma dose_start_le (i : nat) (n : Z) (interval : Q) :
  (0 <= interval)%Q -> (Z.of_nat i < n)%Z ->
  (Qred (inject_Z (Z.of_nat i) * interval) <= inject_Z (n - 1) * interval)%Q.
Proof.
  intros Hi Hn. rewrite Qred_correct. apply Qmult_le_compat_r; [| exact Hi].
  rewrite <- Zle_Qle. lia.
Qed.

(** X18.  With a non-negative interval, [repeated_bolus] delivers
    nothing before time zero and nothing from the end of the last dose
    window, [(n_doses - 1) * interval + duration], on. *)
Theorem repeated_bolus_support :
  forall (amplitude : fl) (interval duration t : Q) (n_doses : Z),
    (0 <= interval)%Q ->
    (t < 0)%Q \/ (inject_Z (n_doses - 1) * interval + duration <= t)%Q ->
    repeated_bolus amplitude (Fin interval) n_doses (Fin duration) (Fin t) = Fin 0.
Proof.
  intros amplitude interval duration t n Hi Ht. unfold repeated_bolus.
  assert (Hdoses : forall i, i ∈ seq 0 (Z.to_nat n) -> (Z.of_nat i < n)%Z).
  { intros i Hin. apply elem_of_seq in Hin. lia. }
  induction (seq 0 (Z.to_nat n)) as [| i doses IH]; [reflexivity |].
  cbn [dose_loop].
  change (Fin (inject_Z (Z.of_nat i)) * Fin interval)%num
    with (Fin (Qred (inject_Z (Z.of_nat i) * interval))).
  destruct (_ && _) eqn:Hw.
  - apply window_spec in Hw.
    pose proof (dose_start_nonneg i interval Hi).
    pose proof (dose_start_le i n interval Hi (Hdoses i (list_elem_of_here _ _))).
    lra.
  - apply IH. intros j Hj. apply Hdoses. now right.
Qed.

Lemma repeated_bolus_support_witness :
  repeated_bolus (Fin 5) (Fin 60) 3 (Fin 5) (Fin 125) = Fin 0.
Proof.
  apply repeated_bolus_support; [discriminate |]. right. discriminate.
Defined.

(** *** The right-hand side over the reals *)

Lemma real_params_default :
  real_params (init None) "k_N" = (6 / 100)%R
  /\ real_params (init None) "k_on" = (1 / 2)%R
  /\ real_params (init None) "k_off" = (1 / 10)%R
  /\ real_params (init None) "k_des" = (5 / 100)%R
  /\ real_params (init None) "k_res" = (1 / 100)%R
  /\ real_params (init None) "k_D" = 1%R
  /\ real_params (init None) "k_clear" = (1 / 2)%R
  /\ real_params (init None) "epsilon" = (1 / 10000)%R
  /\ real_params (init None) "D_0" = (1 / 2)%R.
Proof.
  unfold real_params.
  replace (init None !! "k_N") with (Some (Fin 0.06)) by reflexivity.
  replace (init None !! "k_on") with (Some (Fin 0.5)) by reflexivity.
  replace (init None !! "k_off") with (Some (Fin 0.1)) by reflexivity.
  replace (init None !! "k_des") with (Some (Fin 0.05)) by reflexivity.
  replace (init None !! "k_res") with (Some (Fin 0.01)) by reflexivity.
  replace (init None !! "k_D") with (Some (Fin 1.0)) by reflexivity.
  replace (init None !! "k_clear") with (Some (Fin 0.5)) by reflexivity.
  replace (init None !! "epsilon") with (Some (Fin 0.0001)) by reflexivity.
  replace (init None !! "D_0") with (Some (Fin 0.5)) by reflexivity.
  simpl. unfold Q2R. simpl. repeat split; lra.
Qed.

(** X19.  At any zero of the right-hand side, for a non-zero adaptation
    rate [epsilon], the dopamine level is exactly [D_0], whatever the
    intake; the active receptors balance the dopamine clearance, the
    desensitised receptors balance the desensitisation, and the nicotine
    level balances the intake. *)
Theorem equilibrium_dopamine_is_baseline :
  forall (p : string -> R) (I : R) (y : state R),
    dynamics_rhs p I y = State 0%R 0%R 0%R 0%R 0%R ->
    p "epsilon" <> 0%R ->
    st_D y = p "D_0"
    /\ (p "k_D" * st_R_a y = p "k_clear" * p "D_0")%R
    /\ (p "k_des" * st_R_a y = p "k_res" * st_R_d y)%R
    /\ (I = p "k_N" * st_N y)%R.
Proof.
  intros p I [N Ra Rd RT D] Heq Heps.
  unfold dynamics_rhs in Heq. simpl in Heq.
  injection Heq as HN HRa HRd HRT HD. simpl.
  assert (HD0 : D = p "D_0").
  { apply Rmult_integral in HRT as [H0 | H0]; [contradiction | lra]. }
  subst D. repeat split; lra.
Qed.

Lemma equilibrium_dopamine_is_baseline_witness :
  let p := real_params (init None) in
  let y := State 1%R (1 / 4)%R (5 / 4)%R (63 / 40)%R (1 / 2)%R in
  st_D y = p "D_0"
  /\ (p "k_D" * st_R_a y = p "k_clear" * p "D_0")%R
  /\ (p "k_des" * st_R_a y = p "k_res" * st_R_d y)%R
  /\ ((6 / 100)%R = p "k_N" * st_N y)%R.
Proof.
  intros p y.
  destruct real_params_default as (kN & kon & koff & kdes & kres & kD & kcl & eps & D0).
  apply (equilibrium_dopamine_is_baseline p (6 / 100)%R y).
  - unfold dynamics_rhs, y, py_max, p.
    cbn [add sub mul opp gtb zero R_arith].
    rewrite kN, kon, koff, kdes, kres, kD, kcl, eps, D0.
    unfold R_gtb. destruct (Rlt_dec _ _); [| lra].
    f_equal; lra.
  - unfold p. rewrite eps. lra.
Defined.

(** X20.  The right-hand side never points out of the region where
    [N], [R_a], [R_d] and [D] are non-negative: with non-negative rate
    constants and intake, a component that is zero has a non-negative
    derivative. *)
Theorem dynamics_keeps_orthant :
  forall (p : string -> R) (I : R) (y : state R),
    (0 <= p "k_on")%R -> (0 <= p "k_des")%R -> (0 <= p "k_D")%R -> (0 <= I)%R ->
    (0 <= st_N y)%R -> (0 <= st_R_a y)%R ->
    (st_N y = 0%R -> 0 <= st_N (dynamics_rhs p I y))%R
    /\ (st_R_a y = 0%R -> 0 <= st_R_a (dynamics_rhs p I y))%R
    /\ (st_R_d y = 0%R -> 0 <= st_R_d (dynamics_rhs p I y))%R
    /\ (st_D y = 0%R -> 0 <= st_D (dynamics_rhs p I y))%R.
Proof.
  intros p I [N Ra Rd RT D] Hon Hdes HD HI HN HRa. simpl in *.
  unfold py_max. simpl. unfold R_gtb.
  repeat split; intros ->.
  - lra.
  - destruct (Rlt_dec _ _); [| lra].
    assert (0 <= p "k_on" * N * (RT - 0 - Rd))%R
      by (apply Rmult_le_pos; [apply Rmult_le_pos; assumption | lra]).
    lra.
  - assert (0 <= p "k_des" * Ra)%R by (apply Rmult_le_pos; assumption). lra.
  - assert (0 <= p "k_D" * Ra)%R by (apply Rmult_le_pos; assumption). lra.
Qed.

Lemma dynamics_keeps_orthant_witness :
  (0 <= st_R_a (dynamics_rhs (real_params (init None)) 1%R
                  (State 2%R 0%R 0%R 1%R 0%R)))%R.
Proof.
  destruct real_params_default as (kN & kon & koff & kdes & kres & kD & kcl & eps & D0).
  apply (dynamics_keeps_orthant (real_params (init None)) 1%R
           (State 2%R 0%R 0%R 1%R 0%R));
    rewrite ?kon, ?kdes, ?kD; simpl; try lra; reflexivity.
Defined.

(** X21.  For any parameters, the derivative at the baseline state
    [[0, 0, 0, R_T_0, D_0]] under zero intake is
    [[0, 0, 0, 0, -k_clear * D_0]]: the baseline is an equilibrium
    exactly when [k_clear * D_0 = 0]. *)
Theorem baseline_equilibrium_iff :
  forall (p : string -> R),
    dynamics_rhs p 0%R (State 0%R 0%R 0%R (p "R_T_0") (p "D_0"))
    = State 0%R 0%R 0%R 0%R (- (p "k_clear" * p "D_0"))%R
    /\ (dynamics_rhs p 0%R (State 0%R 0%R 0%R (p "R_T_0") (p "D_0"))
        = State 0%R 0%R 0%R 0%R 0%R
        <-> (p "k_clear" * p "D_0" = 0)%R).
Proof.
  intros p. split.
  - unfold dynamics_rhs. simpl. f_equal; ring.
  - unfold dynamics_rhs. simpl. split.
    + intros [= _ _ _ _ HD]. lra.
    + intros Hz. f_equal; lra.
Qed.

(** *** More on the sweeps *)

(** X22.  [continuation_1d] called with a name that is neither the
    intake rate nor a key of the mapping, on a non-empty range, returns
    normally and leaves the mapping with a new entry for that name,
    holding the last value of the range. *)
Theorem continuation_1d_adds_unknown_name :
  forall (E : Solvers) (param_name : string) (param_range : list fl)
         (include_upregulation track_stability : bool) (s : params) (p : fl),
    param_name <> "I" ->
    s !! param_name = None ->
    last param_range = Some p ->
    exists r,
      continuation_1d E param_name param_range include_upregulation
        track_stability s
      = (Ok r, <[param_name := p]> s).
Proof.
  intros E name range incl track s p Hn Hs Hlast.
  now apply continuation_1d_unknown_name.
Qed.

Lemma continuation_1d_adds_unknown_name_witness :
  exists r,
    continuation_1d (Coarse.solvers true) "k_typo" [Fin 1; Fin 2] true false
      (init None)
    = (Ok r, <["k_typo" := Fin 2]> (init None)).
Proof.
  apply continuation_1d_adds_unknown_name; [discriminate | reflexivity | reflexivity].
Defined.

Lemma np_fmax_nonneg a b :
  nonneg_or_nan a -> nonneg_or_nan b -> nonneg_or_nan (np_fmax a b).
Proof.
  destruct a as [x |], b as [y |]; simpl; auto.
  destruct (Qgtb y x); auto.
Qed.

Lemma np_nanmax_abs_nonneg l w :
  np_nanmax (map fl_abs l) = Ok w -> nonneg_or_nan w.
Proof.
  assert (Habs : forall x, nonneg_or_nan (fl_abs x)).
  { intros [q |]; simpl; [| exact I]. rewrite Qred_correct. apply Qabs_nonneg. }
  destruct l as [| x l]; simpl; [discriminate |]. intros [= <-].
  assert (Hx : nonneg_or_nan (fl_abs x)) by apply Habs.
  revert Hx. generalize (fl_abs x). induction l as [| y l IH]; intros a Ha; simpl.
  - exact Ha.
  - apply IH. apply np_fmax_nonneg; [exact Ha | apply Habs].
Qed.

Lemma estimate_width_nonneg up down D_up D_down s w s' :
  estimate_width up down D_up D_down s = (Ok w, s') -> nonneg_or_nan w.
Proof.
  destruct up as [| u0 up']; [discriminate |].
  destruct (last (u0 :: up')) as [ul |] eqn:Hul;
    [| apply last_None in Hul; discriminate].
  destruct down as [| d0 down'].
  { unfold estimate_width, bind, first_item, last_item, ret, raise. simpl.
    discriminate. }
  destruct (last (d0 :: down')) as [dl |] eqn:Hdl;
    [| apply last_None in Hdl; discriminate].
  rewrite (estimate_width_ends (u0 :: up') (d0 :: down') D_up D_down u0 ul d0 dl s
             eq_refl Hul eq_refl Hdl).
  cbv zeta.
  destruct (fl_gtb _ _); [| intros [= <- _]; simpl; apply Qle_refl].
  destruct (_ && _); [| intros [= <- _]; simpl; apply Qle_refl].
  destruct (np_sub _ _) as [diff | e]; [| discriminate].
  intros [= Hmax _]. now apply np_nanmax_abs_nonneg in Hmax.
Qed.

(** X23.  A width returned by [hysteresis_loop] is never negative: it
    is 0, the largest of some absolute differences, or NaN when all the
    compared values are NaN. *)
Theorem hysteresis_width_nonnegative :
  forall (E : Solvers) (param_range_up param_range_down : list fl)
         (param_name : string) (s s' : params) (h : Hysteresis),
    hysteresis_loop E param_range_up param_range_down param_name s = (Ok h, s') ->
    nonneg_or_nan (hysteresis_width h).
Proof.
  intros E up down name s s' h Hrun.
  destruct (hysteresis_loop_unfold E up down name s)
    as (cu & cd & s1 & _ & _ & Hunf).
  rewrite Hunf in Hrun.
  destruct (estimate_width _ _ _ _ s1) as [[w | e] s2] eqn:Hest; [| discriminate].
  injection Hrun as <- _. simpl.
  now apply estimate_width_nonneg in Hest.
Qed.

Lemma hysteresis_width_nonnegative_witness :
  exists h,
    fst (hysteresis_loop (Coarse.solvers true) [Fin 0; Fin 1; Fin 2]
           [Fin 2; Fin 1; Fin 0] "I" (init None))
    = Ok h
    /\ nonneg_or_nan (hysteresis_width h).
Proof.
  destruct (hysteresis_loop (Coarse.solvers true) [Fin 0; Fin 1; Fin 2]
              [Fin 2; Fin 1; Fin 0] "I" (init None)) as [[h | e] s'] eqn:Hrun.
  - exists h. split; [reflexivity |].
    exact (hysteresis_width_nonnegative _ _ _ _ _ _ _ Hrun).
  - apply (f_equal fst) in Hrun. vm_compute in Hrun. discriminate.
Defined.

(** *** Where the Jacobian is the derivative *)

(** X24.  The clamp of [dynamics] enters the [R_a] equation only.  Every
    entry of the matrix computed by [jacobian] outside the [R_a] row is
    the partial derivative of the right-hand side at every state, and
    the [R_a] row is as soon as receptors are available,
    [R_T - R_a - R_d > 0]. *)
Theorem jacobian_entry_is_partial_derivative :
  forall (p : string -> R) (I : R) (y : state R) (i j : var),
    i <> vR_a \/ (0 < st_R_T y - st_R_a y - st_R_d y)%R ->
    derivable_pt_lim (partial_map p I y i j) (state_get j y)
      (entry (jacobian_entries p y) i j).
Proof.
  intros p I y i j [Hrow | Havail].
  - destruct y as [N Ra Rd RT D].
    apply (affine_derivative _ _ _ 1%R); [lra |].
    intros h _.
    destruct i; try (exfalso; apply Hrow; reflexivity); destruct j;
      unfold partial_map, entry, jacobian_entries, dynamics_rhs;
      simpl; ring.
  - now apply jacobian_entries_partial_derivatives.
Qed.

Lemma jacobian_entry_is_partial_derivative_witness :
  derivable_pt_lim
    (partial_map (real_params (init None)) 0%R (State 1%R 1%R 1%R 1%R 0%R)
       vD vR_a)
    1%R
    (entry (jacobian_entries (real_params (init None))
              (State 1%R 1%R 1%R 1%R 0%R)) vD vR_a).
Proof.
  apply (jacobian_entry_is_partial_derivative (real_params (init None)) 0%R
           (State 1%R 1%R 1%R 1%R 0%R) vD vR_a).
  left. discriminate.
Defined.
